(** * Quantum noise models for mobile QKD: a shallow embedding

    The program [noise-models-4-mobileqkd.py] corrupts a key (a Python [str]
    of '0'/'1' symbols) under twelve named noise models, measures the error
    rate and the binary entropy of the corrupted key, picks a retained
    fraction by fixed thresholds and compares the twelve models over a grid of
    noise probabilities.

    Python floats are IEEE-754 binary64 numbers: they are embedded as Rocq's
    primitive [float]s, whose operations are the same binary64 operations.
    Python [str] values are embedded as [string]s; a Python [int] as [Z].
    The process-wide numpy generator is embedded as an explicit random source
    whose state is threaded through every call. *)

From Stdlib Require Import ZArith List String Ascii Bool Lia.
From Stdlib Require Import QArith Qround Qabs Qpower Lqa.
From Stdlib Require Import Floats.
Import ListNotations.

Set Warnings "-inexact-float".

Local Open Scope Z_scope.
Local Open Scope string_scope.

(** ** The random source

    [np.random.rand()], [np.random.choice(['0','1'])] and
    [np.random.normal(loc, scale)] each consume the generator and return a
    draw.  [choice01] returns which of the two list elements was picked. *)

Class RandomSource (G : Type) : Type := {
  rand : G -> float * G;
  choice01 : G -> bool * G;
  normal : float -> float -> G -> float * G
}.

(** The element of [['0','1']] a draw of [choice01] designates. *)
Definition symbol (c : bool) : string := if c then "1" else "0".

(** ** Parameters of the script *)

Definition key_length : Z := 512.

Definition noise_models : list string :=
  [ "Bit Flip"; "Phase Flip"; "Bit-Phase Flip"; "Depolarizing";
    "Amplitude Damping"; "Generalized Amplitude Damping"; "Phase Damping";
    "Non-Markovian"; "Collective Correlated"; "Gaussian Bosonic";
    "Polarization Mode Dispersion"; "Photon Number Splitting" ].

(** ** Noise simulation *)

Section NoiseChannel.

Context {G : Type} `{RandomSource G}.

(** The body of the [if]/[elif] chain of [apply_noise] for one symbol:
    [rnd] is the uniform draw already made for this position, the result is
    the text appended to [noisy] and the generator after the extra draws
    of the selected rule. *)
Definition corrupt (model : string) (p : float) (i : nat) (bit : ascii)
    (rnd : float) (g : G) : string * G :=
  let same := String bit EmptyString in
  if model =? "Bit Flip" then
    (if (bit =? "0")%char && (rnd <? p)%float then "1"
     else if (bit =? "1")%char && (rnd <? p)%float then "0"
     else same, g)
  else if model =? "Phase Flip" then
    (same, g)
  else if model =? "Bit-Phase Flip" then
    (if (bit =? "0")%char && (rnd <? p)%float then "1"
     else if (bit =? "1")%char && (rnd <? p)%float then "0"
     else same, g)
  else if model =? "Depolarizing" then
    if (rnd <? p)%float then
      let (c, g') := choice01 g in (symbol c, g')
    else (same, g)
  else if model =? "Amplitude Damping" then
    (if (bit =? "1")%char && (rnd <? p)%float then "0" else same, g)
  else if model =? "Generalized Amplitude Damping" then
    if (bit =? "1")%char && (rnd <? p * 0.6)%float then ("0", g)
    else if (bit =? "0")%char && (rnd <? p * 0.4)%float then ("1", g)
    else (same, g)
  else if model =? "Phase Damping" then
    (same, g)
  else if model =? "Non-Markovian" then
    if (rnd <? p)%float && (Nat.modulo i 2 =? 0)%nat then
      let (c, g') := choice01 g in (symbol c, g')
    else (same, g)
  else if model =? "Collective Correlated" then
    (if (bit =? "0")%char && (rnd <? p)%float then "1"
     else if (bit =? "1")%char && (rnd <? p)%float then "0"
     else same, g)
  else if model =? "Gaussian Bosonic" then
    let (n, g1) := normal 0%float 0.1%float g in
    if (0.15 <? n + p)%float then
      let (c, g2) := choice01 g1 in (symbol c, g2)
    else (same, g1)
  else if model =? "Polarization Mode Dispersion" then
    (if (bit =? "0")%char && (rnd <? p / 2)%float then "1"
     else if (bit =? "1")%char && (rnd <? p / 2)%float then "0"
     else same, g)
  else if model =? "Photon Number Splitting" then
    (if (bit =? "1")%char && (rnd <? p)%float then "1" else same, g)
  else
    (same, g).

(** The [for i, bit in enumerate(key)] loop: [i] is the index of the first
    symbol of the part of the key still to visit, [noisy] the accumulator. *)
Fixpoint apply_noise_loop (model : string) (p : float) (i : nat)
    (key noisy : string) (g : G) : string * G :=
  match key with
  | EmptyString => (noisy, g)
  | String bit rest =>
      let (rnd, g1) := rand g in
      let (out, g2) := corrupt model p i bit rnd g1 in
      apply_noise_loop model p (S i) rest (noisy ++ out) g2
  end.

Definition apply_noise (key : string) (p : float) (model : string) (g : G)
    : string * G :=
  apply_noise_loop model p 0 key "" g.

End NoiseChannel.

(** ** Exceptions and integer/float conversions *)

Inductive exn : Type :=
| ZeroDivisionError
| ValueError
| OverflowError
| IndexError.

(** [float(z)] for a Python int that fits a machine word (every length and
    every count of this program does: a Python sequence has fewer than
    [2^63] elements).  Below [2^53] the conversion is exact. *)
Definition float_of_int (z : Z) : float :=
  if (z <? 0)%Z then (- of_uint63 (Uint63.of_Z (- z)))%float
  else of_uint63 (Uint63.of_Z z).

(** [a / b] on Python ints: [ZeroDivisionError] when [b] is zero, otherwise
    the correctly rounded quotient, which for operands below [2^53] (every
    count and length here) is the binary64 quotient of their floats. *)
Definition true_divide (a b : Z) : exn + float :=
  if (b =? 0)%Z then inl ZeroDivisionError
  else inr (float_of_int a / float_of_int b)%float.

(** [int(x)] on a float: truncation toward zero; it raises on a NaN and on
    an infinity. *)
Definition int (x : float) : exn + Z :=
  match Prim2SF x with
  | S754_nan => inl ValueError
  | S754_infinity _ => inl OverflowError
  | S754_zero _ => inr 0
  | S754_finite s m e => inr (cond_Zopp s (Z.shiftl (Zpos m) e))
  end.

(** ** Metrics *)

Definition len (s : string) : Z := Z.of_nat (String.length s).

(** [sum(o != n for o, n in zip(orig, noisy))]: [zip] stops at the end of
    the shorter string. *)
Fixpoint mismatches (orig noisy : string) : Z :=
  match orig, noisy with
  | String o orig', String n noisy' =>
      (if (o =? n)%char then 0 else 1) + mismatches orig' noisy'
  | _, _ => 0
  end.

Definition qber (orig noisy : string) : exn + float :=
  true_divide (mismatches orig noisy) (len orig).

Notation "x >=? y" := (PrimFloat.leb y x) (at level 70, no associativity) : float_scope.

Section Entropy.

(** [np.log2], taken as it is given. *)
Variable log2 : float -> float.

Definition shannon_entropy (q : float) : float :=
  if (q =? 0)%float || (q =? 1)%float then 0%float
  else ((- q) * log2 q - (1 - q) * log2 (1 - q))%float.

End Entropy.

Definition adaptive_amplification (ent : float) : float :=
  if (ent >=? 0.9)%float then 1.0%float
  else if (ent >=? 0.75)%float then 0.75%float
  else if (ent >=? 0.6)%float then 0.6%float
  else 0.5%float.

(** ** Computations that draw randomness and may raise *)

Definition M (G A : Type) : Type := G -> exn + (A * G).

Definition ret {G A : Type} (a : A) : M G A := fun g => inr (a, g).

Definition bind {G A B : Type} (c : M G A) (k : A -> M G B) : M G B :=
  fun g => match c g with
           | inl e => inl e
           | inr (a, g') => k a g'
           end.

(** A call that only consumes the generator. *)
Definition draw {G A : Type} (f : G -> A * G) : M G A := fun g => inr (f g).

(** A call that only may raise. *)
Definition lift {G A : Type} (r : exn + A) : M G A :=
  fun g => match r with
           | inl e => inl e
           | inr a => inr (a, g)
           end.

Notation "x <- c ;; k" := (bind c (fun x => k))
  (at level 61, c at next level, right associativity).

(** ** numpy reductions and Python's [dict], [max] and [min] *)

Definition total (l : list Z) : Z := fold_right Z.add 0 l.

(** [np.mean] of an integer array: the float sum of its entries over their
    count.  The entries are machine integers whose partial sums stay below
    [2^53], so the float sum is the float of the integer sum in whatever
    order numpy adds them; on an empty array it is 0/0, a NaN. *)
Definition mean (l : list Z) : float :=
  (float_of_int (total l) / float_of_int (Z.of_nat (List.length l)))%float.

(** Column [j] of a matrix stored as the list of its rows. *)
Definition column (rows : list (list Z)) (j : nat) : list Z :=
  map (fun row => nth j row 0) rows.

Definition columns (rows : list (list Z)) : list (list Z) :=
  match rows with
  | [] => []
  | row :: _ => map (column rows) (seq 0 (List.length row))
  end.

(** [a.min(axis=0)] and [a.max(axis=0)]: numpy raises [ValueError] when the
    reduced axis is empty, as it is for [np.array([])]. *)
Definition reduce_axis0 (f : Z -> Z -> Z) (rows : list (list Z)) : exn + list Z :=
  match rows with
  | [] => inl ValueError
  | _ => inr (map (fun col => fold_left f (tl col) (hd 0 col)) (columns rows))
  end.

(** A [dict] from model names to gains: the entries in insertion order, an
    assignment to a key already present keeps its place. *)
Definition dict : Type := list (string * float).

Fixpoint dict_set (d : dict) (k : string) (v : float) : dict :=
  match d with
  | [] => [(k, v)]
  | (k', v') :: d' =>
      if k' =? k then (k', v) :: d' else (k', v') :: dict_set d' k v
  end.

(** [max(d, key=d.get)] and [min(d, key=d.get)] visit the keys in insertion
    order ([d.get] of a key of [d] is the value of its entry) and replace the
    current best only by a key whose value beats it: [val > maxval] for
    [max], [val < minval] for [min].  On an empty [dict] they raise. *)
Fixpoint select_from (beats : float -> float -> bool) (items : dict)
    (best : string * float) : string * float :=
  match items with
  | [] => best
  | (k, v) :: rest =>
      if beats v (snd best) then select_from beats rest (k, v)
      else select_from beats rest best
  end.

Definition select (beats : float -> float -> bool) (d : dict)
    : exn + (string * float) :=
  match d with
  | [] => inl ValueError
  | kv :: rest => inr (select_from beats rest kv)
  end.

Definition py_max : dict -> exn + (string * float) :=
  select (fun val maxval => (maxval <? val)%float).

Definition py_min : dict -> exn + (string * float) :=
  select (fun val minval => (val <? minval)%float).

(** [np.linspace(start, stop, num)] for [num >= 2] and distinct ends:
    [i * step + start] with [step = (stop - start) / (num - 1)], the last
    sample replaced by [stop]. *)
Definition linspace (start stop : float) (num : nat) : list float :=
  let step := ((stop - start) / float_of_int (Z.of_nat num - 1))%float in
  let y := map (fun i => (float_of_int (Z.of_nat i) * step + start)%float)
               (seq 0 num) in
  (firstn (num - 1) y ++ [stop])%list.

(** ** Unified static vs adaptive comparison *)

Definition static_baseline : Z := key_length / 2.

(** [int(key_length * adaptive_amplification(ent))]. *)
Definition retained_bits (ent : float) : exn + Z :=
  int (float_of_int key_length * adaptive_amplification ent)%float.

(** [np.mean(np.array(adaps) - static_baseline)]. *)
Definition gain_over_static (adaps : list Z) : float :=
  mean (map (fun ada => ada - static_baseline) adaps).

(** What the sweep hands to the plotting and reporting code. *)
Record summary : Type := {
  adaptive_matrix : list (list Z);
  model_gains : dict;
  mean_adaptive : list float;
  min_adaptive : list Z;
  max_adaptive : list Z;
  best_model : string;
  worst_model : string;
  best_gain : float;
  worst_gain : float
}.

Section Sweep.

Context {G : Type} `{RandomSource G}.
Variable log2 : float -> float.

(** The body of the inner loop: the retained-bit count [ada] of one model
    at one noise probability. *)
Definition grid_point (original_key model : string) (p : float) : M G Z :=
  nk <- draw (apply_noise original_key p model) ;;
  q <- lift (qber original_key nk) ;;
  let ent := (1 - shannon_entropy log2 q)%float in
  lift (retained_bits ent).

(** [for p in noise_range], with the list [adaps] built so far. *)
Fixpoint curve_loop (original_key model : string) (noise_range : list float)
    (adaps : list Z) : M G (list Z) :=
  match noise_range with
  | [] => ret adaps
  | p :: rest =>
      ada <- grid_point original_key model p ;;
      curve_loop original_key model rest (adaps ++ [ada])%list
  end.

(** [for model in noise_models], with [adaptive_matrix] and [model_gains]
    as built so far. *)
Fixpoint models_loop (original_key : string) (noise_range : list float)
    (models : list string) (matrix : list (list Z)) (gains : dict)
    : M G (list (list Z) * dict) :=
  match models with
  | [] => ret (matrix, gains)
  | model :: rest =>
      adaps <- curve_loop original_key model noise_range [] ;;
      models_loop original_key noise_range rest (matrix ++ [adaps])%list
        (dict_set gains model (gain_over_static adaps))
  end.

(** Lines 74 to 99 of [unified_comparison_all_models], with the model
    list, the grid and the key it reads from its globals as arguments. *)
Definition unified_comparison (models : list string)
    (noise_range : list float) (original_key : string) : M G summary :=
  mg <- models_loop original_key noise_range models [] [] ;;
  let matrix := fst mg in
  let gains := snd mg in
  let means := map mean (columns matrix) in
  mins <- lift (reduce_axis0 Z.min matrix) ;;
  maxs <- lift (reduce_axis0 Z.max matrix) ;;
  best <- lift (py_max gains) ;;
  worst <- lift (py_min gains) ;;
  ret {| adaptive_matrix := matrix;
         model_gains := gains;
         mean_adaptive := means;
         min_adaptive := mins;
         max_adaptive := maxs;
         best_model := fst best;
         worst_model := fst worst;
         best_gain := snd best;
         worst_gain := snd worst |}.

Definition noise_range : list float := linspace 0.01 0.3 12.

(** The sweep of the script: lines 74 to 99 on its own model list and grid. *)
Definition unified_comparison_all_models (original_key : string) : M G summary :=
  unified_comparison noise_models noise_range original_key.

End Sweep.

(** ** A concrete random source

    A linear congruential generator, to run the program on concrete inputs. *)

Definition lcg_next (s : Z) : Z := (1103515245 * s + 12345) mod 2147483648.

Definition lcg_unit (s : Z) : float := (float_of_int s / 2147483648)%float.

#[export] Instance lcg : RandomSource Z := {|
  rand s := let s' := lcg_next s in (lcg_unit s', s');
  choice01 s := let s' := lcg_next s in (Z.odd (s' / 65536), s');
  normal loc scale s :=
    let s' := lcg_next s in ((loc + scale * (lcg_unit s' - 0.5))%float, s')
|}.

(** ** Reference notions used in the statements *)

(** The exact rational value of a float ([0] for what has none). *)
Definition Q_of_float (x : float) : Q :=
  match Prim2SF x with
  | S754_finite s m e => (inject_Z (cond_Zopp s (Zpos m)) * Qpower 2 e)%Q
  | _ => 0%Q
  end.

Definition same_symbol (x y : option ascii) : bool :=
  match x, y with
  | Some a, Some b => (a =? b)%char
  | None, None => true
  | _, _ => false
  end.

(** The number of positions, among those both keys have, at which their
    symbols differ. *)
Definition differing_positions (a b : string) : Z :=
  Z.of_nat (List.length
    (filter (fun i => negb (same_symbol (String.get i a) (String.get i b)))
            (seq 0 (Nat.min (String.length a) (String.length b))))).

(** Shapes of a binary64 number: [sf_signed s] is a number (not a NaN) of
    sign [s], [sf_finite s] a finite non-zero one, [sf_zero_or_finite s] a
    finite one. *)
Definition sf_signed (s : bool) (x : spec_float) : Prop :=
  match x with
  | S754_zero s' | S754_infinity s' | S754_finite s' _ _ => s' = s
  | S754_nan => False
  end.

Definition sf_finite (s : bool) (x : spec_float) : Prop :=
  match x with
  | S754_finite s' _ _ => s' = s
  | _ => False
  end.

Definition sf_zero_or_finite (s : bool) (x : spec_float) : Prop :=
  match x with
  | S754_zero s' | S754_finite s' _ _ => s' = s
  | _ => False
  end.

Definition sign_of (z : Z) : bool := (z <? 0)%Z.

(** A well-formed row of the matrix: one count per grid point, each between
    the static baseline and the key length. *)
Definition curve_ok (noise_range : list float) (adaps : list Z) : Prop :=
  List.length adaps = List.length noise_range /\
  Forall (fun ada => (static_baseline <= ada <= key_length)%Z) adaps.

(** ** A concrete run

    A piecewise-linear stand-in for [np.log2], a 16-symbol key and the seed
    [7] of the generator above: the sweep of the script on them. *)

Definition approx_log2 (x : float) : float :=
  let (m, e) := Z.frexp x in (float_of_int e + (2 * m - 2))%float.

Definition demo_key : string := "0101010111001010".

Definition empty_summary : summary := {|
  adaptive_matrix := [];
  model_gains := [];
  mean_adaptive := [];
  min_adaptive := [];
  max_adaptive := [];
  best_model := "";
  worst_model := "";
  best_gain := nan;
  worst_gain := nan
|}.

Definition demo_run : exn + (summary * Z) :=
  unified_comparison_all_models approx_log2 demo_key 7.

Definition demo_summary : summary :=
  Eval vm_compute in
    match demo_run with
    | inr (st, _) => st
    | inl _ => empty_summary
    end.

Definition demo_state : Z :=
  Eval vm_compute in
    match demo_run with
    | inr (_, g) => g
    | inl _ => 0
    end.

(** ** Notions for the remaining properties *)

(** Two strings of one length whose symbols are related position by
    position. *)
Fixpoint pointwise (R : ascii -> ascii -> bool) (a b : string) : bool :=
  match a, b with
  | EmptyString, EmptyString => true
  | String c a', String d b' => R c d && pointwise R a' b'
  | _, _ => false
  end.

Definition binary_symbol (c : ascii) : bool := (c =? "0")%char || (c =? "1")%char.

(** A key in the sense of the script: only '0' and '1'. *)
Fixpoint binary (s : string) : bool :=
  match s with
  | EmptyString => true
  | String c s' => binary_symbol c && binary s'
  end.

(** What the rules may do to one symbol. *)
Definition kept_or_binary (c d : ascii) : bool :=
  (d =? c)%char || binary_symbol d.

Definition kept_or_flipped (c d : ascii) : bool :=
  (d =? c)%char
  || ((c =? "0")%char && (d =? "1")%char)
  || ((c =? "1")%char && (d =? "0")%char).

Definition kept_or_damped (c d : ascii) : bool :=
  (d =? c)%char || ((c =? "1")%char && (d =? "0")%char).

Definition differs (c d : ascii) : bool := negb (c =? d)%char.

(** The generator after [n] calls of [np.random.rand()]. *)
Definition after_draws {G : Type} `{RandomSource G} (n : nat) (g : G) : G :=
  Nat.iter n (fun g' => snd (rand g')) g.

(** The models whose rule makes a draw of its own besides [rand]. *)
Definition drawing_models : list string :=
  [ "Depolarizing"; "Non-Markovian"; "Gaussian Bosonic" ].

(** [l.index(x)]: the first position of [x], [ValueError] when absent. *)
Fixpoint py_index (l : list string) (x : string) : exn + nat :=
  match l with
  | [] => inl ValueError
  | y :: l' =>
      if String.eqb y x then inr O
      else match py_index l' x with
           | inl e => inl e
           | inr i => inr (S i)
           end
  end.

(** [a[i]] on a list with a non-negative index: [None] stands for
    [IndexError]. *)
Definition row_at (matrix : list (list Z)) (i : nat) : option (list Z) :=
  nth_error matrix i.

(** A random source that answers every call with the same draws. *)
Definition fixed_source (r : float) (c : bool) : RandomSource unit := {|
  rand g := (r, g);
  choice01 g := (c, g);
  normal loc scale g := (loc, g)
|}.

(** The models whose rule writes back the symbol it read: Phase Flip, Phase
    Damping, Photon Number Splitting and every unrecognized name. *)
Definition quiet_model (model : string) : Prop :=
  model = "Phase Flip" \/ model = "Phase Damping" \/
  model = "Photon Number Splitting" \/ ~ In model noise_models.

(** What Bit Flip does to a symbol when the draw is below the probability:
    a '0' or a '1' is replaced by the other one. *)
Definition flipped_if_binary (c d : ascii) : bool :=
  negb (binary_symbol c) || differs c d.

(** [pointwise] with a relation that may look at the position, counted
    from [i]. *)
Fixpoint pointwise_from (R : nat -> ascii -> ascii -> bool) (i : nat)
    (a b : string) : bool :=
  match a, b with
  | EmptyString, EmptyString => true
  | String c a', String d b' => R i c d && pointwise_from R (S i) a' b'
  | _, _ => false
  end.

(** At an odd position the symbol is the one that was read. *)
Definition kept_at_odd (i : nat) (c d : ascii) : bool :=
  (Nat.modulo i 2 =? 0)%nat || (d =? c)%char.

(** ** The figure and the summary

    Lines 101 to 153 of [unified_comparison_all_models] draw the curves and
    display a Markdown summary.  The drawing calls take what the sweep
    computed and return nothing the function uses; what can raise there is
    the indexing in their arguments, evaluated in source order. *)

(** [a[-1]]: the last entry; [IndexError] on an empty sequence. *)
Definition py_last {A : Type} (a : list A) : exn + A :=
  match rev a with
  | [] => inl IndexError
  | x :: _ => inr x
  end.

(** [a[i]] for a non-negative index [i]. *)
Definition py_getitem {A : Type} (a : list A) (i : nat) : exn + A :=
  match nth_error a i with
  | Some x => inr x
  | None => inl IndexError
  end.

(** What the function shows: the two highlighted curves (lines 116 and
    118), the positions of the two annotations (lines 122 and 125) and the
    numbers of the summary (lines 138 to 151), besides the statistics of the
    sweep. *)
Record report : Type := {
  statistics : summary;
  best_curve : list Z;
  worst_curve : list Z;
  best_annotation : float * Z;
  worst_annotation : float * Z;
  avg_gain : float;
  gain_at_max : float;
  highest_noise : float
}.

Section Presentation.

Context {G : Type} `{RandomSource G}.
Variable log2 : float -> float.

(** [np.mean] of a float array: numpy's summation is taken as given. *)
Variable np_mean : list float -> float.

(** Lines 74 to 153 of [unified_comparison_all_models], with the model
    list, the grid and the key it reads from its globals as arguments. *)
Definition unified_comparison_shown (models : list string)
    (noise_range : list float) (original_key : string) : M G report :=
  st <- unified_comparison log2 models noise_range original_key ;;
  idx_best <- lift (py_index models (best_model st)) ;;
  idx_worst <- lift (py_index models (worst_model st)) ;;
  row_best <- lift (py_getitem (adaptive_matrix st) idx_best) ;;
  row_worst <- lift (py_getitem (adaptive_matrix st) idx_worst) ;;
  p_best <- lift (py_last noise_range) ;;
  ada_best <- lift (py_last row_best) ;;
  p_worst <- lift (py_last noise_range) ;;
  ada_worst <- lift (py_last row_worst) ;;
  let gains :=
    map (fun x => (x - float_of_int static_baseline)%float) (mean_adaptive st) in
  mean_last <- lift (py_last (mean_adaptive st)) ;;
  p_max <- lift (py_last noise_range) ;;
  ret {| statistics := st;
         best_curve := row_best;
         worst_curve := row_worst;
         best_annotation := (p_best, ada_best);
         worst_annotation := (p_worst, ada_worst);
         avg_gain := np_mean gains;
         gain_at_max := (mean_last - float_of_int static_baseline)%float;
         highest_noise := p_max |}.

End Presentation.

(** ** The gain of the specification

    The gain of a model as the specification words it, with no reference to
    the program's arithmetic: the mean over the grid of (retained-bit count
    minus static baseline), the baseline being the floor of half the key
    length, computed in the rationals. *)

Fixpoint Qsum (l : list Q) : Q :=
  match l with
  | [] => 0%Q
  | x :: l' => (x + Qsum l')%Q
  end.

Definition exact_mean (l : list Q) : Q :=
  (Qsum l / inject_Z (Z.of_nat (List.length l)))%Q.

Definition spec_static_baseline : Z := Qfloor (inject_Z key_length / 2).

Definition spec_model_gain (curve : list Z) : Q :=
  exact_mean (map (fun count => inject_Z (count - spec_static_baseline)%Z) curve).

(** The binary64 number [x] is the rational [q] rounded once: [x] is finite
    and no finite binary64 number is nearer to [q]. *)
Definition nearest_binary64 (x : float) (q : Q) : Prop :=
  is_finite x = true /\
  forall y : float, is_finite y = true ->
    (Qabs (Q_of_float x - q) <= Qabs (Q_of_float y - q))%Q.

(** The relative distance of the finite [x] from [q] is at most the unit
    roundoff [2^-53]. *)
Definition within_unit_roundoff (x : float) (q : Q) : Prop :=
  is_finite x = true /\
  (Qabs (Q_of_float x - q) <= Qabs q * (1 # 2 ^ 53))%Q.

(** ** Locations of the binary64 rounding

    What [SpecFloat]'s location [l] says of a truncated quotient [m] of [N]
    by [D]: whether [N / D] is [m] exactly or lies strictly between [m] and
    [m + 1], and on which side of [m + 1/2]. *)
Definition located (m N D : Z) (l : location) : Prop :=
  match l with
  | loc_Exact => N = m * D
  | loc_Inexact c =>
      m * D < N < (m + 1) * D /\ Z.compare (2 * N) ((2 * m + 1) * D) = c
  end.

(** What rounding [N / D] to the mantissa [m] at the scale [2^j] achieves:
    [m] has 53 digits; [m * 2^j] is within a relative distance [2^-53] of
    [N / D], and within half of [2^j], the unit in its last place; and
    within a quarter when [m] is the least mantissa and [N / D] lies
    below. *)
Definition nearest_mantissa (m j N D : Z) : Prop :=
  2 ^ 52 <= m < 2 ^ 53 /\
  2 ^ 53 * Z.abs (N - m * 2 ^ j * D) <= N /\
  2 * Z.abs (N - m * 2 ^ j * D) <= 2 ^ j * D /\
  (m = 2 ^ 52 -> 4 * (m * 2 ^ j * D - N) <= 2 ^ j * D).

(** * Properties *)

(** ** Strings *)

Lemma length_append (s t : string) :
  String.length (s ++ t) = (String.length s + String.length t)%nat.
Proof.
  induction s as [|c s IH]; cbn [append String.length]; [reflexivity|].
  rewrite IH. reflexivity.
Qed.

Lemma append_assoc (s t u : string) : (s ++ t) ++ u = s ++ (t ++ u).
Proof.
  induction s as [|c s IH]; cbn [append]; [reflexivity|].
  rewrite IH. reflexivity.
Qed.

(** Decides the comparisons of [model] against the twelve names once the
    model is a literal. *)
Ltac decide_model :=
  repeat match goal with
  | |- context [String.eqb ?a ?b] =>
      let v := eval vm_compute in (String.eqb a b) in
      change (String.eqb a b) with v
  end;
  cbv iota.

(** ** The noise channel *)

Section NoiseChannelFacts.

Context {G : Type} `{RandomSource G}.

(** Whatever the model, one symbol is appended for each symbol read. *)
Lemma corrupt_length model p i bit rnd g :
  String.length (fst (corrupt model p i bit rnd g)) = 1%nat.
Proof.
  unfold corrupt, symbol.
  repeat match goal with
  | |- context [if ?c then _ else _] => destruct c
  | |- context [let (_, _) := ?c in _] => destruct c
  end; reflexivity.
Qed.

Lemma apply_noise_loop_length model p key :
  forall i noisy g,
    String.length (fst (apply_noise_loop model p i key noisy g))
    = (String.length noisy + String.length key)%nat.
Proof.
  induction key as [|bit rest IH]; intros i noisy g; cbn [apply_noise_loop].
  - cbn. lia.
  - destruct (rand g) as [rnd g1].
    pose proof (corrupt_length model p i bit rnd g1) as Hc.
    destruct (corrupt model p i bit rnd g1) as [out g2]. cbn [fst] in Hc.
    rewrite IH, length_append, Hc. cbn [String.length]. lia.
Qed.

(** The Photon Number Splitting rule writes back the symbol it read. *)
Lemma corrupt_photon_number_splitting p i bit rnd g :
  corrupt "Photon Number Splitting" p i bit rnd g
  = (String bit EmptyString, g).
Proof.
  unfold corrupt. decide_model.
  destruct (Ascii.eqb_spec bit "1") as [->|_]; cbn [andb]; [|reflexivity].
  destruct (rnd <? p)%float; reflexivity.
Qed.

Lemma apply_noise_loop_photon_number_splitting p key :
  forall i noisy g,
    fst (apply_noise_loop "Photon Number Splitting" p i key noisy g)
    = noisy ++ key.
Proof.
  induction key as [|bit rest IH]; intros i noisy g; cbn [apply_noise_loop].
  - cbn [fst]. induction noisy as [|c n IHn]; cbn [append]; congruence.
  - destruct (rand g) as [rnd g1].
    rewrite corrupt_photon_number_splitting, IH, append_assoc. reflexivity.
Qed.

(** The rules of Bit-Phase Flip and of Collective Correlated are the rule
    of Bit Flip. *)
Lemma corrupt_bit_phase_flip p i bit rnd g :
  corrupt "Bit-Phase Flip" p i bit rnd g = corrupt "Bit Flip" p i bit rnd g.
Proof. unfold corrupt. decide_model. reflexivity. Qed.

Lemma corrupt_collective_correlated p i bit rnd g :
  corrupt "Collective Correlated" p i bit rnd g
  = corrupt "Bit Flip" p i bit rnd g.
Proof. unfold corrupt. decide_model. reflexivity. Qed.

Lemma apply_noise_loop_ext model model' p :
  (forall i bit rnd g,
      corrupt model p i bit rnd g = corrupt model' p i bit rnd g) ->
  forall key i noisy g,
    apply_noise_loop model p i key noisy g
    = apply_noise_loop model' p i key noisy g.
Proof.
  intros Hrule key.
  induction key as [|bit rest IH]; intros i noisy g; cbn [apply_noise_loop].
  - reflexivity.
  - destruct (rand g) as [rnd g1]. rewrite Hrule.
    destruct (corrupt model' p i bit rnd g1) as [out g2]. apply IH.
Qed.

(** C1: for every key, probability and model name, recognized or not,
    [apply_noise] returns a key of the length of its input.  The input is
    an immutable [str], passed by value: the loop only extends its own
    accumulator [noisy]. *)
Theorem apply_noise_preserves_length (key : string) (p : float)
    (model : string) (g : G) :
  String.length (fst (apply_noise key p model g)) = String.length key.
Proof.
  unfold apply_noise. rewrite apply_noise_loop_length. reflexivity.
Qed.

(** C6: under the model Photon Number Splitting the key comes back
    unchanged, whatever the probability and the random draws. *)
Theorem photon_number_splitting_is_identity (key : string) (p : float)
    (g : G) :
  fst (apply_noise key p "Photon Number Splitting" g) = key.
Proof.
  unfold apply_noise.
  rewrite apply_noise_loop_photon_number_splitting. reflexivity.
Qed.

(** C7: from the same key, probability and generator state, Bit-Phase Flip
    and Collective Correlated return what Bit Flip returns: the same noisy
    key, and the same generator state after it. *)
Theorem flip_models_coincide (key : string) (p : float) (g : G) :
  apply_noise key p "Bit-Phase Flip" g = apply_noise key p "Bit Flip" g /\
  apply_noise key p "Collective Correlated" g = apply_noise key p "Bit Flip" g.
Proof.
  unfold apply_noise. split; apply apply_noise_loop_ext; intros.
  - apply corrupt_bit_phase_flip.
  - apply corrupt_collective_correlated.
Qed.

End NoiseChannelFacts.


(** ** Binary64 facts

    The comparisons of binary64 numbers form a total preorder away from NaN,
    and the float of a machine integer is a finite number of its sign. *)

Local Open Scope Z_scope.

Ltac cmp_cases :=
  repeat match goal with
  | |- context [Z.compare ?a ?b] => destruct (Z.compare_spec a b)
  | H : context [Z.compare ?a ?b] |- _ => destruct (Z.compare_spec a b)
  | |- context [Pos.compare ?a ?b] => destruct (Pos.compare_spec a b)
  | H : context [Pos.compare ?a ?b] |- _ => destruct (Pos.compare_spec a b)
  end.

(** Three numbers compared two by two: by cases on their shapes and signs,
    then on the order of the exponents and of the mantissas. *)
Ltac sf_order3 a b c :=
  destruct a as [[|]|[|]| |[|] ? ?], b as [[|]|[|]| |[|] ? ?],
           c as [[|]|[|]| |[|] ? ?];
  try (simpl; congruence);
  change (Pos.compare_cont Eq) with Pos.compare; intros;
  cmp_cases; simpl in *; try congruence; try lia.

Lemma SFleb_trans a b c : SFleb a b = true -> SFleb b c = true -> SFleb a c = true.
Proof.
  unfold SFleb, SFcompare.
  sf_order3 a b c.
Qed.

Lemma SFltb_leb_trans a b c : SFltb a b = true -> SFleb b c = true -> SFltb a c = true.
Proof.
  unfold SFleb, SFltb, SFcompare.
  sf_order3 a b c.
Qed.

Lemma digits2_pos_spec m :
  2 ^ (Zpos (digits2_pos m) - 1) <= Zpos m < 2 ^ (Zpos (digits2_pos m)).
Proof.
  induction m as [m IH|m IH|]; cbn [digits2_pos].
  - rewrite Pos2Z.inj_succ, Z.pow_succ_r by lia.
    replace (Z.succ (Z.pos (digits2_pos m)) - 1) with (Z.succ (Zpos (digits2_pos m) - 1)) by lia.
    rewrite Z.pow_succ_r by lia. lia.
  - rewrite Pos2Z.inj_succ, Z.pow_succ_r by lia.
    replace (Z.succ (Z.pos (digits2_pos m)) - 1) with (Z.succ (Zpos (digits2_pos m) - 1)) by lia.
    rewrite Z.pow_succ_r by lia. lia.
  - cbn. lia.
Qed.

Lemma digits2_pos_le m k : 0 <= k -> Zpos m < 2 ^ k -> Zpos (digits2_pos m) <= k.
Proof.
  intros Hk Hm. destruct (digits2_pos_spec m) as [Hlo _].
  destruct (Z.le_gt_cases (Zpos (digits2_pos m)) k) as [|Hgt]; [assumption|].
  assert (2 ^ k <= 2 ^ (Zpos (digits2_pos m) - 1)) by (apply Z.pow_le_mono_r; lia).
  lia.
Qed.

Lemma iter_pos_iter {A} (f : A -> A) p : forall x, iter_pos f p x = Pos.iter f x p.
Proof.
  induction p as [p IH|p IH|]; intros x; cbn [iter_pos Pos.iter].
  - rewrite !IH, <- !Pos.iter_swap. reflexivity.
  - rewrite !IH. reflexivity.
  - reflexivity.
Qed.

Lemma shr_1_m r : 0 <= shr_m r -> shr_m (shr_1 r) = shr_m r / 2.
Proof.
  destruct r as [m rr s]; cbn [shr_m shr_1]. intros Hm.
  destruct m as [|[p|p|]|p]; cbn [shr_m]; try lia; try reflexivity.
  - rewrite Pos2Z.inj_xI. apply Z.div_unique with 1; lia.
  - rewrite Pos2Z.inj_xO. apply Z.div_unique with 0; lia.
Qed.

Lemma iter_shr_1_m k : forall r, 0 <= shr_m r ->
  shr_m (iter_pos shr_1 k r) = shr_m r / 2 ^ Zpos k.
Proof.
  intros r Hr. rewrite iter_pos_iter.
  induction k as [|k IH] using Pos.peano_ind.
  - cbn [Pos.iter]. rewrite shr_1_m by assumption. reflexivity.
  - rewrite Pos.iter_succ, shr_1_m.
    + rewrite IH, Pos2Z.inj_succ, Z.pow_succ_r by lia.
      rewrite Z.div_div by lia. f_equal. lia.
    + rewrite IH. apply Z.div_pos; lia.
Qed.

Lemma shr_m_e r e n : 0 <= shr_m r ->
  shr_m (fst (shr r e n)) = shr_m r / 2 ^ Z.max n 0 /\ snd (shr r e n) = e + Z.max n 0.
Proof.
  intros Hr. unfold shr. destruct n as [|p|p]; cbn [fst snd].
  - cbn. rewrite Z.div_1_r. lia.
  - rewrite iter_shr_1_m by assumption. rewrite Z.max_l by lia. split; reflexivity.
  - cbn. rewrite Z.div_1_r. lia.
Qed.

Lemma shr_record_of_loc_m m l : shr_m (shr_record_of_loc m l) = m.
Proof. destruct l as [|[| |]]; reflexivity. Qed.

Lemma round_nearest_even_bounds m l :
  m <= round_nearest_even m l <= m + 1.
Proof.
  unfold round_nearest_even. destruct l as [|[| |]]; try lia.
  destruct (Z.even m); lia.
Qed.

Lemma shr_fexp_m m e l : 0 <= m ->
  let n := Z.max (fexp prec emax (Zdigits2 m + e) - e) 0 in
  shr_m (fst (shr_fexp prec emax m e l)) = m / 2 ^ n /\
  snd (shr_fexp prec emax m e l) = e + n.
Proof.
  intros Hm n. unfold shr_fexp.
  destruct (shr_m_e (shr_record_of_loc m l) e (fexp prec emax (Zdigits2 m + e) - e)) as [P1 P2].
  - rewrite shr_record_of_loc_m. assumption.
  - rewrite shr_record_of_loc_m in P1. split; assumption.
Qed.

Lemma binary_round_aux_signed sx mx ex lx :
  0 <= mx -> sf_signed sx (binary_round_aux prec emax sx mx ex lx).
Proof.
  intros Hm. unfold binary_round_aux.
  destruct (shr_fexp prec emax mx ex lx) as [r1 e1] eqn:E1.
  pose proof (shr_fexp_m mx ex lx Hm) as [P1 _]. rewrite E1 in P1. cbn [fst] in P1.
  set (m2 := round_nearest_even (shr_m r1) (loc_of_shr_record r1)).
  assert (H2 : 0 <= m2).
  { pose proof (round_nearest_even_bounds (shr_m r1) (loc_of_shr_record r1)).
    assert (0 <= shr_m r1) by (rewrite P1; apply Z.div_pos; lia). unfold m2. lia. }
  destruct (shr_fexp prec emax m2 e1 loc_Exact) as [r3 e3] eqn:E3.
  pose proof (shr_fexp_m m2 e1 loc_Exact H2) as [P3 _]. rewrite E3 in P3. cbn [fst] in P3.
  assert (0 <= shr_m r3) by (rewrite P3; apply Z.div_pos; lia).
  destruct (shr_m r3); cbn; try reflexivity; try lia.
  destruct (_ <=? _); reflexivity.
Qed.

Lemma div_pow2_pos m k : 0 <= k -> 2 ^ k <= m -> 0 < m / 2 ^ k.
Proof. intros Hk Hm. apply Z.div_str_pos. split; [apply Z.pow_pos_nonneg; lia | assumption]. Qed.

Lemma shift_keeps_digit p e : SpecFloat.emin prec emax <= e ->
  2 ^ Z.max (fexp prec emax (Zpos (digits2_pos p) + e) - e) 0 <= Zpos p.
Proof.
  intros He. destruct (digits2_pos_spec p) as [Hlo _].
  eapply Z.le_trans; [|exact Hlo].
  apply Z.pow_le_mono_r; [lia|]. unfold fexp, SpecFloat.emin, prec, emax in *. lia.
Qed.

Lemma binary_round_aux_finite sx m ex lx :
  SpecFloat.emin prec emax <= ex <= 0 -> Zpos m < 2 ^ 64 ->
  sf_finite sx (binary_round_aux prec emax sx (Zpos m) ex lx).
Proof.
  intros He Hm. unfold binary_round_aux.
  destruct (shr_fexp prec emax (Zpos m) ex lx) as [r1 e1] eqn:E1.
  pose proof (shr_fexp_m (Zpos m) ex lx ltac:(lia)) as [P1 Q1].
  rewrite E1 in P1, Q1. cbn [fst snd Zdigits2] in P1, Q1.
  pose proof (shift_keeps_digit m ex ltac:(lia)) as K1.
  pose proof (digits2_pos_le m 64 ltac:(lia) Hm) as D1.
  set (n1 := Z.max (fexp prec emax (Zpos (digits2_pos m) + ex) - ex) 0) in *.
  assert (Hr1 : 0 < shr_m r1 <= Zpos m).
  { rewrite P1. split; [apply div_pow2_pos; [unfold n1; lia | assumption]|].
    apply Z.div_le_upper_bound; [apply Z.pow_pos_nonneg; lia|].
    assert (1 <= 2 ^ n1) by (apply (Z.pow_le_mono_r 2 0 n1); unfold n1; lia). nia. }
  pose proof (round_nearest_even_bounds (shr_m r1) (loc_of_shr_record r1)) as B2.
  set (m2 := round_nearest_even (shr_m r1) (loc_of_shr_record r1)) in *.
  destruct m2 as [|p2|p2] eqn:Em2; try lia.
  assert (D2 : Zpos (digits2_pos p2) <= 65).
  { apply digits2_pos_le; [lia|]. change (2 ^ 65) with (2 * 2 ^ 64). lia. }
  assert (He1 : SpecFloat.emin prec emax <= e1 <= 11).
  { rewrite Q1. unfold n1, fexp, SpecFloat.emin, emax, prec in *. lia. }
  destruct (shr_fexp prec emax (Zpos p2) e1 loc_Exact) as [r3 e3] eqn:E3.
  pose proof (shr_fexp_m (Zpos p2) e1 loc_Exact ltac:(lia)) as [P3 Q3].
  rewrite E3 in P3, Q3. cbn [fst snd Zdigits2] in P3, Q3.
  pose proof (shift_keeps_digit p2 e1 ltac:(lia)) as K3.
  set (n3 := Z.max (fexp prec emax (Zpos (digits2_pos p2) + e1) - e1) 0) in *.
  assert (Hr3 : 0 < shr_m r3) by (rewrite P3; apply div_pow2_pos; [unfold n3; lia | assumption]).
  assert (He3 : e3 <= emax - prec).
  { rewrite Q3. unfold n3, fexp, SpecFloat.emin, emax, prec in *. lia. }
  destruct (shr_m r3); try lia.
  apply Z.leb_le in He3. rewrite He3. reflexivity.
Qed.

Lemma iter_xO_spec m k : Zpos (Pos.iter xO m k) = Zpos m * 2 ^ Zpos k.
Proof.
  induction k as [|k IH] using Pos.peano_ind.
  - cbn [Pos.iter]. rewrite Pos2Z.inj_xO. lia.
  - rewrite Pos.iter_succ, Pos2Z.inj_xO, IH, Pos2Z.inj_succ, Z.pow_succ_r by lia. lia.
Qed.

Lemma binary_normalize_int_finite m :
  Zpos m < 2 ^ 63 ->
  sf_finite false (binary_normalize prec emax (Zpos m) 0 false).
Proof.
  intros Hm. cbn [binary_normalize]. unfold binary_round.
  destruct (shl_align m 0 _) as [mz ez] eqn:E.
  unfold shl_align in E.
  destruct (digits2_pos_spec m) as [_ Hhi].
  pose proof (digits2_pos_le m 63 ltac:(lia) Hm) as Hd.
  set (d := Zpos (digits2_pos m)) in *.
  assert (Hf : fexp prec emax (d + 0) = d - 53)
    by (unfold fexp, SpecFloat.emin, prec, emax, d; lia).
  rewrite Hf in E. remember (d - 53) as x eqn:Ex.
  assert (Hbits : 2 ^ 63 < 2 ^ 64) by (apply Z.pow_lt_mono_r; lia).
  destruct (x - 0) as [|k|k] eqn:Ek; inversion E; subst mz ez; clear E.
  - apply binary_round_aux_finite; [unfold SpecFloat.emin, prec, emax; lia | lia].
  - apply binary_round_aux_finite; [unfold SpecFloat.emin, prec, emax; lia | lia].
  - apply binary_round_aux_finite; [unfold SpecFloat.emin, prec, emax, d in *; lia|].
    rewrite iter_xO_spec.
    assert (Hk : Zpos k = 53 - d) by lia.
    assert (Hlt : Zpos m * 2 ^ Zpos k < 2 ^ d * 2 ^ Zpos k).
    { apply Z.mul_lt_mono_pos_r; [apply Z.pow_pos_nonneg; lia | assumption]. }
    rewrite <- Z.pow_add_r in Hlt by (unfold d; lia).
    replace (d + Zpos k) with 53 in Hlt by lia.
    assert (2 ^ 53 < 2 ^ 64) by (apply Z.pow_lt_mono_r; lia). lia.
Qed.

Lemma of_uint63_finite n :
  (0 < Uint63.to_Z n)%Z -> sf_finite false (Prim2SF (of_uint63 n)).
Proof.
  intros Hn. rewrite of_uint63_spec.
  pose proof (Uint63.to_Z_bounded n) as Hb.
  destruct (Uint63.to_Z n) as [|m|m] eqn:E; try lia.
  apply binary_normalize_int_finite. destruct Hb as [_ Hb]. exact Hb.
Qed.

Lemma SFdiv_core_nonneg m1 e1 m2 e2 :
  0 <= fst (fst (SFdiv_core_binary prec emax (Zpos m1) e1 (Zpos m2) e2)).
Proof.
  unfold SFdiv_core_binary.
  set (s := e1 - e2 - _).
  set (m' := match s with Z0 => Zpos m1 | Zpos _ => Z.shiftl (Zpos m1) s | Zneg _ => 0 end).
  assert (Hm' : 0 <= m').
  { unfold m'. destruct s; try lia. apply Z.shiftl_nonneg. lia. }
  destruct (Z.div_eucl m' (Zpos m2)) as [q r] eqn:Ed. cbn [fst].
  assert (Hq : q = m' / Zpos m2) by (unfold Z.div; rewrite Ed; reflexivity).
  rewrite Hq. apply Z.div_pos; lia.
Qed.

Lemma SFdiv_signed sx sy x y :
  sf_zero_or_finite sx x -> sf_finite sy y ->
  sf_signed (xorb sx sy) (SF64div x y).
Proof.
  destruct x as [s1| | |s1 m1 e1]; cbn [sf_zero_or_finite]; try contradiction;
    destruct y as [| | |s2 m2 e2]; cbn [sf_finite]; try contradiction;
    intros -> ->; unfold SF64div, SFdiv.
  - reflexivity.
  - pose proof (SFdiv_core_nonneg m1 e1 m2 e2) as Hq.
    destruct (SFdiv_core_binary prec emax (Zpos m1) e1 (Zpos m2) e2) as [[mz ez] lz].
    apply binary_round_aux_signed. exact Hq.
Qed.

Lemma float_of_int_sf z :
  - 2 ^ 63 < z < 2 ^ 63 ->
  match z with
  | Z0 => Prim2SF (float_of_int z) = S754_zero false
  | Zpos _ => sf_finite false (Prim2SF (float_of_int z))
  | Zneg _ => sf_finite true (Prim2SF (float_of_int z))
  end.
Proof.
  intros Hz. unfold float_of_int. destruct z as [|p|p].
  - reflexivity.
  - change (Zpos p <? 0) with false. cbv iota.
    apply of_uint63_finite. rewrite Uint63.of_Z_spec, Z.mod_small; [lia|].
    change Uint63.wB with (2 ^ 63). lia.
  - change (Zneg p <? 0) with true. cbv iota. rewrite opp_spec.
    assert (H : sf_finite false (Prim2SF (of_uint63 (Uint63.of_Z (- Zneg p))))).
    { apply of_uint63_finite. rewrite Uint63.of_Z_spec, Z.mod_small; [lia|].
      change Uint63.wB with (2 ^ 63). lia. }
    destruct (Prim2SF _); cbn in *; try contradiction. subst. reflexivity.
Qed.

Lemma float_of_int_zero_or_finite z :
  - 2 ^ 63 < z < 2 ^ 63 -> sf_zero_or_finite (sign_of z) (Prim2SF (float_of_int z)).
Proof.
  intros Hz. pose proof (float_of_int_sf z Hz) as H.
  destruct z; [rewrite H; reflexivity | |]; destruct (Prim2SF _); cbn in *; try contradiction; assumption.
Qed.

(** The quotient of two machine integers is a number, of the sign of the
    quotient. *)
Lemma int_div_signed a b :
  - 2 ^ 63 < a < 2 ^ 63 -> 0 < b < 2 ^ 63 ->
  sf_signed (sign_of a) (Prim2SF (float_of_int a / float_of_int b)).
Proof.
  intros Ha Hb. rewrite div_spec.
  pose proof (float_of_int_zero_or_finite a Ha) as Hx.
  pose proof (float_of_int_sf b ltac:(lia)) as Hy.
  destruct b as [|pb|pb]; try lia.
  pose proof (SFdiv_signed _ _ _ _ Hx Hy) as Hd.
  rewrite xorb_false_r in Hd. exact Hd.
Qed.

Lemma zero_div_int b :
  0 < b < 2 ^ 63 -> (float_of_int 0 / float_of_int b)%float = 0%float.
Proof.
  intros Hb. apply Prim2SF_inj. rewrite div_spec.
  pose proof (float_of_int_sf b ltac:(lia)) as Hy.
  destruct b as [|pb|pb]; try lia.
  destruct (Prim2SF (float_of_int (Zpos pb))) as [| | |s m e]; cbn in Hy; try contradiction.
  subst s. reflexivity.
Qed.

Lemma leb_trans x y z : (x <=? y)%float = true -> (y <=? z)%float = true -> (x <=? z)%float = true.
Proof. rewrite !leb_spec. apply SFleb_trans. Qed.

Lemma ltb_leb_trans x y z : (x <? y)%float = true -> (y <=? z)%float = true -> (x <? z)%float = true.
Proof. rewrite !ltb_spec, !leb_spec. apply SFltb_leb_trans. Qed.

Lemma is_nan_spec x : is_nan x = false <-> Prim2SF x <> S754_nan.
Proof.
  unfold is_nan. rewrite eqb_spec. unfold SFeqb, SFcompare.
  destruct (Prim2SF x) as [s|s| |s m e]; try destruct s; cbn;
    try rewrite Z.compare_refl; try change (Pos.compare_cont Eq m m) with (Pos.compare m m);
    try rewrite Pos.compare_refl; cbn; split; congruence.
Qed.

Lemma sf_signed_number s x : sf_signed s (Prim2SF x) -> is_nan x = false.
Proof. intros H. apply is_nan_spec. intros E. rewrite E in H. exact H. Qed.

Lemma SFltb_false_leb a b : a <> S754_nan -> b <> S754_nan ->
  SFltb a b = false -> SFleb b a = true.
Proof.
  unfold SFleb, SFltb, SFcompare.
  destruct a as [sa|sa| |sa ma ea], b as [sb|sb| |sb mb eb];
    try destruct sa; try destruct sb; try (simpl; congruence);
    change (Pos.compare_cont Eq) with Pos.compare; intros Ha Hb Hab;
    cmp_cases; simpl in *; try congruence; try lia.
Qed.

Lemma ltb_false_leb x y : is_nan x = false -> is_nan y = false ->
  (x <? y)%float = false -> (y <=? x)%float = true.
Proof.
  rewrite !is_nan_spec, ltb_spec, leb_spec. apply SFltb_false_leb.
Qed.

Lemma zero_leb_signed x : sf_signed false (Prim2SF x) -> (0 <=? x)%float = true.
Proof.
  rewrite leb_spec. change (Prim2SF 0) with (S754_zero false).
  destruct (Prim2SF x) as [s|s| |s m e]; cbn; try contradiction; intros ->; reflexivity.
Qed.

Lemma SFltb_trans a b c : SFltb a b = true -> SFltb b c = true -> SFltb a c = true.
Proof.
  unfold SFltb, SFcompare.
  sf_order3 a b c.
Qed.

Lemma SFleb_ltb_trans a b c : SFleb a b = true -> SFltb b c = true -> SFltb a c = true.
Proof.
  unfold SFleb, SFltb, SFcompare.
  sf_order3 a b c.
Qed.

Lemma SFltb_leb a b : SFltb a b = true -> SFleb a b = true.
Proof.
  unfold SFleb, SFltb. destruct (SFcompare a b) as [[| |]|]; congruence.
Qed.

Lemma ltb_trans x y z : (x <? y)%float = true -> (y <? z)%float = true -> (x <? z)%float = true.
Proof. rewrite !ltb_spec. apply SFltb_trans. Qed.

Lemma leb_ltb_trans x y z : (x <=? y)%float = true -> (y <? z)%float = true -> (x <? z)%float = true.
Proof. rewrite !ltb_spec, !leb_spec. apply SFleb_ltb_trans. Qed.

Lemma ltb_leb x y : (x <? y)%float = true -> (x <=? y)%float = true.
Proof. rewrite ltb_spec, leb_spec. apply SFltb_leb. Qed.

(** ** Metrics *)

Lemma mismatches_sym a : forall b, mismatches a b = mismatches b a.
Proof.
  induction a as [|o a IH]; intros [|n b]; cbn [mismatches]; try reflexivity.
  rewrite IH, Ascii.eqb_sym. reflexivity.
Qed.

Lemma mismatches_self k : mismatches k k = 0.
Proof.
  induction k as [|o k IH]; cbn [mismatches]; [reflexivity|].
  rewrite Ascii.eqb_refl, IH. reflexivity.
Qed.

Lemma filter_shift_length (f : nat -> bool) (l : list nat) :
  List.length (filter f (map S l)) = List.length (filter (fun i => f (S i)) l).
Proof.
  induction l as [|i l IH]; cbn [map filter]; [reflexivity|].
  destruct (f (S i)); cbn [List.length]; rewrite IH; reflexivity.
Qed.

(** [zip] pairs the symbols position by position up to the shorter key. *)
Lemma mismatches_differing a : forall b, mismatches a b = differing_positions a b.
Proof.
  unfold differing_positions.
  induction a as [|o a IH]; intros [|n b]; cbn [mismatches]; try reflexivity.
  rewrite IH. cbn [String.length Nat.min seq].
  rewrite <- seq_shift. cbn [filter String.get same_symbol].
  destruct (o =? n)%char; cbn [negb List.length];
    rewrite filter_shift_length; cbn beta iota; lia.
Qed.

Lemma len_zero_iff s : len s = 0 <-> s = EmptyString.
Proof.
  unfold len. destruct s; cbn [String.length]; split; intros E;
    try reflexivity; try discriminate; lia.
Qed.

(** C4 (as amended): [qber] does not compare the lengths of its arguments.
    It counts the differing symbols among the positions both keys have and
    divides by the length of the first key; its only failure is the division
    by zero on an empty first key. *)
Theorem qber_pairs_up_to_shorter (orig noisy : string) :
  qber orig noisy =
    if (len orig =? 0)%Z then inl ZeroDivisionError
    else inr (float_of_int (differing_positions orig noisy)
              / float_of_int (len orig))%float.
Proof.
  unfold qber, true_divide. rewrite mismatches_differing. reflexivity.
Qed.

(** C4, as stated, fails: keys of lengths 2 and 1 are accepted, and an error
    rate is returned. *)
Lemma qber_accepts_unequal_lengths :
  (String.length "01" =? String.length "0")%nat = false /\
  qber "01" "0" = inr 0%float /\
  qber "0" "01" = inr 0%float /\
  qber "1100" "00" = inr 0.5%float.
Proof. repeat split; reflexivity. Qed.

(** C9 (as amended): a non-empty key has error rate 0 against itself, and
    the error rate is symmetric on keys of equal length (on two empty keys
    both orders raise the same error). *)
Theorem qber_self_and_symmetry :
  (forall k, 0 < len k < 2 ^ 63 -> qber k k = inr 0%float) /\
  (forall a b, String.length a = String.length b -> qber a b = qber b a).
Proof.
  split.
  - intros k Hk. unfold qber, true_divide. rewrite mismatches_self.
    destruct (Z.eqb_spec (len k) 0) as [E|_]; [lia|].
    rewrite zero_div_int by assumption. reflexivity.
  - intros a b Hab. unfold qber, len. rewrite mismatches_sym, Hab. reflexivity.
Qed.

Lemma qber_self_and_symmetry_witness :
  qber demo_key demo_key = inr 0%float /\
  qber "0101" "0011" = qber "0011" "0101".
Proof.
  split.
  - apply (proj1 qber_self_and_symmetry). vm_compute. split; reflexivity.
  - apply (proj2 qber_self_and_symmetry). reflexivity.
Defined.

(** C9, as stated, fails: the error rate of the empty key against itself is
    a division by zero, and on keys of different lengths the two orders
    disagree. *)
Lemma qber_empty_and_asymmetric :
  qber "" "" = inl ZeroDivisionError /\
  qber "1" "01" = inr 1%float /\
  qber "01" "1" = inr 0.5%float.
Proof. repeat split; reflexivity. Qed.

(** ** The adaptive policy *)

Lemma adaptive_amplification_cases ent :
  adaptive_amplification ent = 0.5%float \/
  adaptive_amplification ent = 0.6%float \/
  adaptive_amplification ent = 0.75%float \/
  adaptive_amplification ent = 1.0%float.
Proof.
  unfold adaptive_amplification.
  destruct (ent >=? 0.9)%float; [tauto|].
  destruct (ent >=? 0.75)%float; [tauto|].
  destruct (ent >=? 0.6)%float; tauto.
Qed.

Lemma retained_bits_floor ent :
  retained_bits ent
  = inr (Qfloor (inject_Z key_length * Q_of_float (adaptive_amplification ent))).
Proof.
  unfold retained_bits.
  destruct (adaptive_amplification_cases ent) as [E|[E|[E|E]]]; rewrite E;
    vm_compute; reflexivity.
Qed.

Lemma retained_bits_cases ent :
  retained_bits ent = inr 256 \/ retained_bits ent = inr 307 \/
  retained_bits ent = inr 384 \/ retained_bits ent = inr 512.
Proof.
  unfold retained_bits.
  destruct (adaptive_amplification_cases ent) as [E|[E|[E|E]]]; rewrite E;
    [left | right; left | right; right; left | right; right; right];
    vm_compute; reflexivity.
Qed.

(** C2: the thresholds are inclusive lower bounds tried from the highest
    down, the first that holds decides (so an input equal to a threshold
    takes the fraction of that threshold), and the retained-bit count is the
    floor of [key_length] times the exact value of the fraction. *)
Theorem adaptive_amplification_thresholds (ent : float) :
  ((ent >=? 0.9)%float = true -> adaptive_amplification ent = 1.0%float) /\
  ((ent >=? 0.9)%float = false -> (ent >=? 0.75)%float = true ->
   adaptive_amplification ent = 0.75%float) /\
  ((ent >=? 0.9)%float = false -> (ent >=? 0.75)%float = false ->
   (ent >=? 0.6)%float = true -> adaptive_amplification ent = 0.6%float) /\
  ((ent >=? 0.9)%float = false -> (ent >=? 0.75)%float = false ->
   (ent >=? 0.6)%float = false -> adaptive_amplification ent = 0.5%float) /\
  (adaptive_amplification 0.9 = 1.0%float /\
   adaptive_amplification 0.75 = 0.75%float /\
   adaptive_amplification 0.6 = 0.6%float) /\
  retained_bits ent
  = inr (Qfloor (inject_Z key_length * Q_of_float (adaptive_amplification ent))).
Proof.
  unfold adaptive_amplification at 1 2 3 4.
  repeat split; try (intros; repeat match goal with
                     | E : _ = _ |- _ => rewrite E; clear E end; reflexivity).
  apply retained_bits_floor.
Qed.

Lemma adaptive_amplification_thresholds_witness :
  adaptive_amplification 0.95 = 1.0%float /\
  adaptive_amplification 0.8 = 0.75%float /\
  adaptive_amplification 0.7 = 0.6%float /\
  adaptive_amplification 0.2 = 0.5%float /\
  retained_bits 0.7 = inr 307.
Proof.
  pose proof (adaptive_amplification_thresholds 0.95) as (H1 & _).
  pose proof (adaptive_amplification_thresholds 0.8) as (_ & H2 & _).
  pose proof (adaptive_amplification_thresholds 0.7) as (_ & _ & H3 & _ & _ & H5).
  pose proof (adaptive_amplification_thresholds 0.2) as (_ & _ & _ & H4 & _).
  split; [|split; [|split; [|split]]].
  - apply H1. reflexivity.
  - apply H2; reflexivity.
  - apply H3; reflexivity.
  - apply H4; reflexivity.
  - rewrite H5. reflexivity.
Defined.

(** C8: the fraction does not decrease when the confidence increases, and
    it is always one of 0.5, 0.6, 0.75 and 1.0. *)
Theorem adaptive_amplification_monotone_range :
  (forall x y, (x <=? y)%float = true ->
     (adaptive_amplification x <=? adaptive_amplification y)%float = true) /\
  (forall x,
     adaptive_amplification x = 0.5%float \/
     adaptive_amplification x = 0.6%float \/
     adaptive_amplification x = 0.75%float \/
     adaptive_amplification x = 1.0%float).
Proof.
  split; [|exact adaptive_amplification_cases].
  intros x y Hxy.
  assert (T : forall t, (t <=? x)%float = true -> (t <=? y)%float = true)
    by (intros t Ht; exact (leb_trans t x y Ht Hxy)).
  unfold adaptive_amplification.
  destruct (x >=? 0.9)%float eqn:X1; [rewrite (T _ X1); reflexivity|].
  destruct (x >=? 0.75)%float eqn:X2;
    [rewrite (T _ X2); destruct (y >=? 0.9)%float; reflexivity|].
  destruct (x >=? 0.6)%float eqn:X3;
    [rewrite (T _ X3); destruct (y >=? 0.9)%float, (y >=? 0.75)%float; reflexivity|].
  destruct (y >=? 0.9)%float, (y >=? 0.75)%float, (y >=? 0.6)%float; reflexivity.
Qed.

Lemma adaptive_amplification_monotone_witness :
  (adaptive_amplification 0.7 <=? adaptive_amplification 0.8)%float = true /\
  (adaptive_amplification 0.95 <=? adaptive_amplification 0.95)%float = true.
Proof.
  split; apply (proj1 adaptive_amplification_monotone_range); reflexivity.
Defined.

(** ** Python's [max] and [min] with a key *)

Section Selection.

(** [beats v b]: the value [v] replaces the current best [b];
    [atleast b v]: [b] is at least as good as [v]. *)
Variables beats atleast : float -> float -> bool.

Hypothesis beats_or_atleast : forall v b,
  is_nan v = false -> is_nan b = false -> beats v b = false -> atleast b v = true.
Hypothesis beats_trans : forall a b c,
  beats b a = true -> beats c b = true -> beats c a = true.
Hypothesis atleast_beats : forall a b c,
  atleast b a = true -> beats c b = true -> beats c a = true.

(** The scan keeps, to the left of the current best, entries it beats and,
    between it and the entries still to visit, entries it is at least as
    good as. *)
Lemma select_from_splits : forall (items pre : dict) (best : string * float) (mid : dict),
  Forall (fun e => is_nan (snd e) = false) (best :: items) ->
  Forall (fun e => beats (snd best) (snd e) = true) pre ->
  Forall (fun e => atleast (snd best) (snd e) = true) mid ->
  exists pre' post',
    (pre ++ best :: mid ++ items)%list
    = (pre' ++ select_from beats items best :: post')%list /\
    Forall (fun e => beats (snd (select_from beats items best)) (snd e) = true) pre' /\
    Forall (fun e => atleast (snd (select_from beats items best)) (snd e) = true) post'.
Proof.
  induction items as [|[k v] rest IH]; intros pre best mid Hnum Hpre Hmid.
  - exists pre, mid. cbn [select_from]. rewrite app_nil_r. auto.
  - cbn [select_from].
    inversion Hnum as [|? ? Hbest Hrest]; subst.
    inversion Hrest as [|? ? Hv Hrest']; subst. cbn [snd] in Hv.
    destruct (beats v (snd best)) eqn:Hb.
    + destruct (IH (pre ++ best :: mid)%list (k, v) []) as (pre' & post' & E & P1 & P2).
      * constructor; assumption.
      * cbn [snd]. apply Forall_app. split; [|constructor].
        -- eapply Forall_impl; [|exact Hpre]. cbn beta. intros e He.
           eapply beats_trans; eassumption.
        -- exact Hb.
        -- eapply Forall_impl; [|exact Hmid]. cbn beta. intros e He.
           eapply atleast_beats; eassumption.
      * constructor.
      * exists pre', post'. split; [|split; assumption].
        rewrite <- E. cbn [app]. rewrite <- app_assoc. reflexivity.
    + destruct (IH pre best (mid ++ [(k, v)])%list) as (pre' & post' & E & P1 & P2).
      * constructor; assumption.
      * assumption.
      * apply Forall_app. split; [assumption|]. constructor; [|constructor].
        cbn [snd]. apply beats_or_atleast; assumption.
      * exists pre', post'. split; [|split; assumption].
        rewrite <- E, <- app_assoc. reflexivity.
Qed.

Lemma select_splits (d : dict) (best : string * float) :
  Forall (fun e => is_nan (snd e) = false) d ->
  select beats d = inr best ->
  exists pre post,
    d = (pre ++ best :: post)%list /\
    Forall (fun e => beats (snd best) (snd e) = true) pre /\
    Forall (fun e => atleast (snd best) (snd e) = true) post.
Proof.
  intros Hnum Hsel. destruct d as [|kv rest]; [discriminate|].
  cbn [select] in Hsel. injection Hsel as <-.
  destruct (select_from_splits rest [] kv [] Hnum) as (pre & post & E & P1 & P2);
    [constructor | constructor |].
  exists pre, post. cbn [app] in E. auto.
Qed.

End Selection.

Lemma select_member beats (d : dict) (best : string * float) :
  select beats d = inr best -> In best d.
Proof.
  destruct d as [|kv rest]; [discriminate|]. cbn [select]. intros [= <-].
  revert kv. induction rest as [|[k v] rest IH]; intros kv; cbn [select_from].
  - left. reflexivity.
  - destruct (beats v (snd kv)).
    + right. specialize (IH (k, v)). destruct IH as [<-|IH]; [left; reflexivity | right; assumption].
    + specialize (IH kv). destruct IH as [<-|IH]; [left; reflexivity | right; right; assumption].
Qed.

(** [max] returns the first entry whose value no entry exceeds. *)
Lemma py_max_first_greatest (d : dict) (best : string * float) :
  Forall (fun e => is_nan (snd e) = false) d ->
  py_max d = inr best ->
  exists pre post,
    d = (pre ++ best :: post)%list /\
    Forall (fun e => (snd e <? snd best)%float = true) pre /\
    Forall (fun e => (snd e <=? snd best)%float = true) post.
Proof.
  apply (select_splits (fun val maxval => (maxval <? val)%float)
                       (fun b v => (v <=? b)%float)).
  - intros v b Hv Hb. apply ltb_false_leb; assumption.
  - intros a b c. apply ltb_trans.
  - intros a b c. apply leb_ltb_trans.
Qed.

(** [min] returns the first entry whose value is below no entry's. *)
Lemma py_min_first_least (d : dict) (best : string * float) :
  Forall (fun e => is_nan (snd e) = false) d ->
  py_min d = inr best ->
  exists pre post,
    d = (pre ++ best :: post)%list /\
    Forall (fun e => (snd best <? snd e)%float = true) pre /\
    Forall (fun e => (snd best <=? snd e)%float = true) post.
Proof.
  apply (select_splits (fun val minval => (val <? minval)%float)
                       (fun b v => (b <=? v)%float)).
  - intros v b Hv Hb. apply ltb_false_leb; assumption.
  - intros a b c Hba Hcb. exact (ltb_trans c b a Hcb Hba).
  - intros a b c Hba Hcb. exact (ltb_leb_trans c b a Hcb Hba).
Qed.

(** ** Sums, means and the [dict] of gains *)

Lemma total_bounds (lo hi : Z) (l : list Z) :
  Forall (fun x => lo <= x <= hi) l ->
  lo * Z.of_nat (List.length l) <= total l <= hi * Z.of_nat (List.length l).
Proof.
  induction 1 as [|x l Hx _ IH]; cbn [total fold_right List.length]; [lia|].
  fold (total l). rewrite Nat2Z.inj_succ. lia.
Qed.

(** The gain of a non-empty curve whose counts lie between the static
    baseline and the key length is a number, and it is not negative. *)
Lemma gain_over_static_signed (adaps : list Z) :
  adaps <> [] -> Z.of_nat (List.length adaps) < 2 ^ 55 ->
  Forall (fun ada => static_baseline <= ada <= key_length) adaps ->
  sf_signed false (Prim2SF (gain_over_static adaps)).
Proof.
  intros Hne Hlen Hrange. unfold gain_over_static, mean.
  rewrite length_map.
  assert (Hdiff : Forall (fun x => 0 <= x <= 256)
                         (map (fun ada => ada - static_baseline) adaps)).
  { apply Forall_map. eapply Forall_impl; [|exact Hrange]. cbn beta.
    unfold static_baseline, key_length. intros a Ha.
    change (512 / 2) with 256 in *. lia. }
  apply total_bounds in Hdiff. rewrite length_map in Hdiff.
  assert (Hpos : 0 < Z.of_nat (List.length adaps))
    by (destruct adaps; [congruence | cbn [List.length]; lia]).
  assert (H55 : 2 ^ 63 = 256 * 2 ^ 55) by reflexivity.
  set (t := total _) in *.
  replace false with (sign_of t) by (unfold sign_of; apply Z.ltb_ge; lia).
  apply int_div_signed; lia.
Qed.

Lemma dict_set_fresh (d : dict) (k : string) (v : float) :
  ~ In k (map fst d) -> dict_set d k v = (d ++ [(k, v)])%list.
Proof.
  induction d as [|[k' v'] d IH]; cbn [dict_set map fst In app]; intros Hk.
  - reflexivity.
  - destruct (String.eqb_spec k' k) as [->|_]; [tauto|].
    rewrite IH by tauto. reflexivity.
Qed.

Lemma dict_set_entries (d : dict) (k : string) (v : float) (e : string * float) :
  In e (dict_set d k v) -> In e d \/ e = (k, v).
Proof.
  induction d as [|[k' v'] d IH]; cbn [dict_set In].
  - intros [<-|[]]. right. reflexivity.
  - destruct (String.eqb_spec k' k) as [->|_]; cbn [In].
    + intros [<-|He]; [right; reflexivity | left; right; assumption].
    + intros [<-|He]; [left; left; reflexivity|].
      destruct (IH He) as [Hd | ->]; [left; right; assumption | right; reflexivity].
Qed.

(** ** Rounding of the binary64 quotient *)

Lemma digits2_pos_unique m d :
  2 ^ (d - 1) <= Zpos m < 2 ^ d -> 0 < d -> Zpos (digits2_pos m) = d.
Proof.
  intros [Hlo Hhi] Hd. destruct (digits2_pos_spec m) as [Hlo' Hhi'].
  set (d' := Zpos (digits2_pos m)) in *.
  destruct (Z.lt_trichotomy d' d) as [Hlt|[E|Hgt]]; [exfalso|exact E|exfalso].
  - assert (2 ^ d' <= 2 ^ (d - 1)) by (apply Z.pow_le_mono_r; unfold d' in *; lia). lia.
  - assert (2 ^ d <= 2 ^ (d' - 1)) by (apply Z.pow_le_mono_r; lia). lia.
Qed.

Lemma digits2_pos_53 m :
  2 ^ 52 <= Zpos m < 2 ^ 53 <-> Zpos (digits2_pos m) = 53.
Proof.
  split.
  - intros Hm. apply digits2_pos_unique; [exact Hm | lia].
  - intros E. pose proof (digits2_pos_spec m) as Hs. rewrite E in Hs. exact Hs.
Qed.

Lemma loc_of_shr_record_of_loc m l :
  loc_of_shr_record (shr_record_of_loc m l) = l.
Proof. destruct l as [|[| |]]; reflexivity. Qed.

(** A mantissa of 53 digits with an exponent in range is already rounded. *)
Lemma binary_round_aux_canonical sx m e :
  Zpos (digits2_pos m) = 53 ->
  SpecFloat.emin prec emax <= e <= emax - prec ->
  binary_round_aux prec emax sx (Zpos m) e loc_Exact = S754_finite sx m e.
Proof.
  intros Hd He. unfold binary_round_aux, shr_fexp. cbn [Zdigits2].
  assert (Hf : fexp prec emax (Zpos (digits2_pos m) + e) - e = 0).
  { rewrite Hd. unfold fexp, SpecFloat.emin, prec, emax in *. lia. }
  rewrite Hf. cbn [shr shr_record_of_loc shr_m loc_of_shr_record round_nearest_even].
  cbn [Zdigits2]. rewrite Hf. cbn [shr shr_record_of_loc shr_m].
  destruct He as [_ He]. apply Z.leb_le in He. rewrite He. reflexivity.
Qed.

Lemma digits2_pos_iter_xO m k :
  Zpos (digits2_pos (Pos.iter xO m k)) = Zpos (digits2_pos m) + Zpos k.
Proof.
  induction k as [|k IH] using Pos.peano_ind.
  - cbn [Pos.iter digits2_pos]. lia.
  - rewrite Pos.iter_succ. cbn [digits2_pos]. lia.
Qed.

(** The float of an integer below [2^53] is that integer, exactly, with a
    mantissa of 53 digits. *)
Lemma float_of_int_exact z :
  0 < z < 2 ^ 53 ->
  exists m a,
    Prim2SF (float_of_int z) = S754_finite false m (- a) /\
    0 <= a <= 52 /\ Zpos m = z * 2 ^ a /\ Zpos (digits2_pos m) = 53.
Proof.
  intros Hz. unfold float_of_int.
  destruct z as [|p|p]; try lia.
  change (Zpos p <? 0) with false. cbv iota.
  assert (H63 : 2 ^ 53 < 2 ^ 63) by (apply Z.pow_lt_mono_r; lia).
  rewrite of_uint63_spec, Uint63.of_Z_spec, Z.mod_small
    by (change Uint63.wB with (2 ^ 63); lia).
  cbn [binary_normalize]. unfold binary_round.
  pose proof (digits2_pos_le p 53 ltac:(lia) ltac:(lia)) as Hd.
  destruct (digits2_pos_spec p) as [Hlo Hhi].
  set (d := Zpos (digits2_pos p)) in *.
  assert (Hf : fexp prec emax (d + 0) = d - 53)
    by (unfold fexp, SpecFloat.emin, prec, emax, d; lia).
  rewrite Hf. unfold shl_align. remember (d - 53) as x eqn:Ex.
  destruct (x - 0) as [|k|k] eqn:Ek.
  - assert (Hd53 : d = 53) by lia.
    rewrite binary_round_aux_canonical;
      [|exact Hd53 | unfold SpecFloat.emin, prec, emax; lia].
    exists p, 0. change (- 0) with 0. split; [reflexivity|].
    split; [lia|]. split; [|exact Hd53]. rewrite Z.mul_1_r. reflexivity.
  - unfold d in *. lia.
  - assert (Hk : Zpos k = 53 - d) by lia.
    rewrite binary_round_aux_canonical;
      [| rewrite digits2_pos_iter_xO; fold d; lia
       | unfold SpecFloat.emin, prec, emax, d in *; lia].
    exists (Pos.iter xO p k), (Zpos k).
    split; [f_equal; lia|]. split; [unfold d in *; lia|].
    split; [apply iter_xO_spec | rewrite digits2_pos_iter_xO; fold d; lia].
Qed.

Lemma new_location_located D N :
  0 < D -> 0 <= N -> located (N / D) N D (new_location D (N mod D)).
Proof.
  intros HD HN.
  pose proof (Z.div_mod N D ltac:(lia)) as Hdm.
  pose proof (Z.mod_pos_bound N D HD) as Hr.
  set (q := N / D) in *. set (r := N mod D) in *.
  assert (Hcmp : forall c, Z.compare (2 * r) D = c ->
                           Z.compare (2 * N) ((2 * q + 1) * D) = c).
  { intros c <-. replace ((2 * q + 1) * D) with (2 * (D * q) + D) by ring.
    destruct (Z.compare_spec (2 * r) D), (Z.compare_spec (2 * N) (2 * (D * q) + D));
      try reflexivity; lia. }
  unfold new_location, new_location_even, new_location_odd.
  destruct (Z.even D) eqn:Heven; destruct (Z.eqb_spec r 0) as [E|E]; cbn [located].
  - lia.
  - split; [lia|]. apply Hcmp. reflexivity.
  - lia.
  - split; [lia|]. apply Hcmp.
    assert (Hodd : Z.odd D = true) by (rewrite <- Z.negb_even, Heven; reflexivity).
    apply Z.odd_spec in Hodd. destruct Hodd as [k Hk].
    destruct (Z.compare_spec (2 * r + 1) D), (Z.compare_spec (2 * r) D);
      try reflexivity; lia.
Qed.
(** Turns the one comparison of a location, in a hypothesis and in the
    goal, into an order between integers. *)
Ltac location_order :=
  try match goal with
  | H : _ /\ Z.compare _ _ = Eq |- _ =>
      let Hb := fresh "Hb" in let Hc := fresh "Hc" in
      destruct H as [Hb Hc]; apply -> Z.compare_eq_iff in Hc
  | H : _ /\ Z.compare _ _ = Lt |- _ =>
      let Hb := fresh "Hb" in let Hc := fresh "Hc" in
      destruct H as [Hb Hc]; apply -> Z.compare_lt_iff in Hc
  | H : _ /\ Z.compare _ _ = Gt |- _ =>
      let Hb := fresh "Hb" in let Hc := fresh "Hc" in
      destruct H as [Hb Hc]; apply -> Z.compare_gt_iff in Hc
  end;
  try match goal with
  | |- _ /\ Z.compare _ _ = Eq => split; [|apply <- Z.compare_eq_iff]
  | |- _ /\ Z.compare _ _ = Lt => split; [|apply <- Z.compare_lt_iff]
  | |- _ /\ Z.compare _ _ = Gt => split; [|apply <- Z.compare_gt_iff]
  end.

Lemma shr_1_located rec N D :
  0 <= shr_m rec -> 0 < D ->
  located (shr_m rec) N D (loc_of_shr_record rec) ->
  located (shr_m (shr_1 rec)) N (2 * D) (loc_of_shr_record (shr_1 rec)).
Proof.
  destruct rec as [m r s]. cbn [shr_m]. intros Hm HD.
  destruct m as [|[p|p|]|p]; try lia;
    destruct r, s; cbn [shr_1 shr_m loc_of_shr_record orb located];
    try rewrite (Pos2Z.inj_xI p); try rewrite (Pos2Z.inj_xO p);
    intros Hloc; location_order; lia.
Qed.

Lemma round_nearest_even_located m N D l :
  0 < D -> located m N D l ->
  - D <= 2 * (N - round_nearest_even m l * D) <= D.
Proof.
  intros HD. destruct l as [|[| |]]; cbn [located round_nearest_even];
    intros Hloc; location_order; try destruct (Z.even m); lia.
Qed.

Lemma shr_fexp_no_shift m e l :
  Zpos (digits2_pos m) = 53 -> SpecFloat.emin prec emax <= e ->
  shr_fexp prec emax (Zpos m) e l = (shr_record_of_loc (Zpos m) l, e).
Proof.
  intros Hd He. unfold shr_fexp. cbn [Zdigits2].
  assert (Hf : fexp prec emax (Zpos (digits2_pos m) + e) - e = 0).
  { rewrite Hd. unfold fexp, SpecFloat.emin, prec, emax in *. lia. }
  rewrite Hf. reflexivity.
Qed.

Lemma shr_fexp_one_shift m e l :
  Zpos (digits2_pos m) = 54 -> SpecFloat.emin prec emax <= e ->
  shr_fexp prec emax (Zpos m) e l = (shr_1 (shr_record_of_loc (Zpos m) l), e + 1).
Proof.
  intros Hd He. unfold shr_fexp. cbn [Zdigits2].
  assert (Hf : fexp prec emax (Zpos (digits2_pos m) + e) - e = 1).
  { rewrite Hd. unfold fexp, SpecFloat.emin, prec, emax in *. lia. }
  rewrite Hf. reflexivity.
Qed.

(** The second half of [binary_round_aux]: a mantissa of 53 digits with its
    location is rounded to the nearest, with a carry into the next binade
    when it rounds up to [2^53]. *)
Lemma round_located sx rec e N D :
  0 < D ->
  2 ^ 52 <= shr_m rec < 2 ^ 53 ->
  located (shr_m rec) N D (loc_of_shr_record rec) ->
  SpecFloat.emin prec emax <= e <= emax - prec - 1 ->
  exists m j,
    0 <= j <= 1 /\
    (let '(mrs'', e'') :=
       shr_fexp prec emax
         (round_nearest_even (shr_m rec) (loc_of_shr_record rec)) e loc_Exact in
     match shr_m mrs'' with
     | Z0 => S754_zero sx
     | Zpos m0 =>
         if e'' <=? emax - prec then S754_finite sx m0 e'' else S754_infinity sx
     | Zneg _ => S754_nan
     end) = S754_finite sx m (e + j) /\
    nearest_mantissa (Zpos m) j N D.
Proof.
  intros HD Hm Hloc He. unfold nearest_mantissa.
  pose proof (round_nearest_even_bounds (shr_m rec) (loc_of_shr_record rec)) as Hb.
  pose proof (round_nearest_even_located _ _ _ _ HD Hloc) as Hnear.
  assert (Hbelow : shr_m rec * D <= N)
    by (destruct (loc_of_shr_record rec); cbn [located] in Hloc; lia).
  assert (Hlow : 2 ^ 52 * D <= N).
  { assert (2 ^ 52 * D <= shr_m rec * D)
      by (apply Z.mul_le_mono_nonneg_r; lia).
    lia. }
  set (m2 := round_nearest_even (shr_m rec) (loc_of_shr_record rec)) in *.
  destruct (Z.lt_ge_cases m2 (2 ^ 53)) as [Hlt|Hge].
  - destruct m2 as [|p2|p2] eqn:E2; try lia.
    assert (Hd : Zpos (digits2_pos p2) = 53) by (apply digits2_pos_53; lia).
    rewrite shr_fexp_no_shift by (assumption || lia).
    cbn [shr_record_of_loc shr_m].
    assert (Hle : (e <=? emax - prec) = true) by (apply Z.leb_le; lia).
    rewrite Hle. exists p2, 0. rewrite Z.add_0_r.
    split; [lia|]. split; [reflexivity|].
    change (2 ^ 0) with 1. rewrite Z.mul_1_r, Z.mul_1_l.
    split; [lia|]. split; [lia|]. split; [lia|].
    intros Hbottom. assert (Hsame : shr_m rec = Zpos p2) by lia.
    rewrite Hsame in Hbelow. lia.
  - assert (E2 : m2 = 2 ^ 53) by lia. rewrite E2 in *.
    change (2 ^ 53) with (Zpos (Pos.iter xO xH 53)) at 1.
    rewrite shr_fexp_one_shift; [|reflexivity | lia].
    cbn [shr_record_of_loc shr_1 shr_m Pos.iter].
    assert (Hle : (e + 1 <=? emax - prec) = true) by (apply Z.leb_le; lia).
    rewrite Hle. eexists. exists 1.
    split; [lia|]. split; [reflexivity|].
    change (2 ^ 1) with 2.
    match goal with |- context [Zpos ?p * 2 * D] =>
      change (Zpos p * 2) with (2 ^ 53);
      change (Zpos p) with (2 ^ 52) end.
    split; [lia|]. split; [lia|]. split; [lia|]. intros _. lia.
Qed.

(** [binary_round_aux] on a truncated quotient [q] of [N] by [D] with its
    location, when [q] has 53 or 54 digits: the result is a finite float
    within half a unit in the last place of [N / D]. *)
Lemma binary_round_aux_located sx q e l N D :
  0 < D -> 2 ^ 52 <= q < 2 ^ 54 -> located q N D l ->
  SpecFloat.emin prec emax <= e <= emax - prec - 2 ->
  exists m j,
    0 <= j <= 2 /\
    binary_round_aux prec emax sx q e l = S754_finite sx m (e + j) /\
    nearest_mantissa (Zpos m) j N D.
Proof.
  intros HD Hq Hloc He.
  destruct q as [|pq|pq]; try lia.
  unfold binary_round_aux.
  destruct (Z.lt_ge_cases (Zpos pq) (2 ^ 53)) as [Hlt|Hge].
  - assert (Hd : Zpos (digits2_pos pq) = 53) by (apply digits2_pos_53; lia).
    rewrite shr_fexp_no_shift by (assumption || lia).
    destruct (round_located sx (shr_record_of_loc (Zpos pq) l) e N D HD)
      as (m & j & Hj & Hr & Hn).
    + rewrite shr_record_of_loc_m. lia.
    + rewrite shr_record_of_loc_m, loc_of_shr_record_of_loc. exact Hloc.
    + lia.
    + exists m, j. split; [lia|]. split; [exact Hr | exact Hn].
  - assert (Hd : Zpos (digits2_pos pq) = 54)
      by (apply digits2_pos_unique; [change (54 - 1) with 53|]; lia).
    rewrite shr_fexp_one_shift by (assumption || lia).
    set (rec := shr_record_of_loc (Zpos pq) l).
    assert (Hrec : shr_m rec = Zpos pq) by apply shr_record_of_loc_m.
    assert (Hhalf : shr_m (shr_1 rec) = Zpos pq / 2)
      by (rewrite shr_1_m, Hrec; [reflexivity | rewrite Hrec; lia]).
    assert (Hrange : 2 ^ 52 <= Zpos pq / 2 < 2 ^ 53).
    { split.
      - apply Z.div_le_lower_bound; [lia|]. change (2 * 2 ^ 52) with (2 ^ 53). lia.
      - apply Z.div_lt_upper_bound; [lia|]. change (2 * 2 ^ 53) with (2 ^ 54). lia. }
    destruct (round_located sx (shr_1 rec) (e + 1) N (2 * D) ltac:(lia))
      as (m & j & Hj & Hr & Hn).
    + rewrite Hhalf. exact Hrange.
    + apply shr_1_located; [rewrite Hrec; lia | exact HD |].
      rewrite Hrec. unfold rec. rewrite loc_of_shr_record_of_loc. exact Hloc.
    + lia.
    + exists m, (j + 1). split; [lia|].
      split; [rewrite Hr; f_equal; lia|].
      unfold nearest_mantissa in *.
      rewrite Z.pow_add_r by lia. change (2 ^ 1) with 2.
      replace (Zpos m * (2 ^ j * 2) * D) with (Zpos m * 2 ^ j * (2 * D)) by ring.
      replace (2 ^ j * 2 * D) with (2 ^ j * (2 * D)) by ring.
      exact Hn.
Qed.

(** The quotient of two finite floats with mantissas of 53 digits. *)
Lemma SFdiv_canonical s1 m1 e1 s2 m2 e2 :
  Zpos (digits2_pos m1) = 53 -> Zpos (digits2_pos m2) = 53 ->
  - 900 <= e1 - e2 <= 900 ->
  exists m j,
    0 <= j <= 2 /\
    SF64div (S754_finite s1 m1 e1) (S754_finite s2 m2 e2)
    = S754_finite (xorb s1 s2) m (e1 - e2 - 53 + j) /\
    nearest_mantissa (Zpos m) j (Zpos m1 * 2 ^ 53) (Zpos m2).
Proof.
  intros Hd1 Hd2 He.
  apply digits2_pos_53 in Hd1 as Hm1. apply digits2_pos_53 in Hd2 as Hm2.
  unfold SF64div, SFdiv, SFdiv_core_binary. cbn [Zdigits2].
  rewrite Hd1, Hd2.
  assert (Hmin : Z.min (fexp prec emax (53 + e1 - (53 + e2))) (e1 - e2) = e1 - e2 - 53)
    by (unfold fexp, SpecFloat.emin, prec, emax; lia).
  rewrite Hmin.
  replace (e1 - e2 - (e1 - e2 - 53)) with 53 by lia.
  cbv beta iota zeta.
  rewrite Z.shiftl_mul_pow2 by lia.
  set (N := Zpos m1 * 2 ^ 53).
  assert (HN : 0 <= N) by (unfold N; lia).
  destruct (Z.div_eucl N (Zpos m2)) as [q r] eqn:Ed.
  assert (Hq : q = N / Zpos m2) by (unfold Z.div; rewrite Ed; reflexivity).
  assert (Hr : r = N mod Zpos m2) by (unfold Z.modulo; rewrite Ed; reflexivity).
  subst q r.
  apply binary_round_aux_located.
  - lia.
  - split.
    + apply Z.div_le_lower_bound; [lia|].
      assert (Zpos m2 * 2 ^ 52 <= 2 ^ 53 * 2 ^ 52)
        by (apply Z.mul_le_mono_nonneg_r; lia).
      assert (2 ^ 52 * 2 ^ 53 <= N)
        by (unfold N; apply Z.mul_le_mono_nonneg_r; lia).
      lia.
    + apply Z.div_lt_upper_bound; [lia|].
      assert (N < 2 ^ 53 * 2 ^ 53)
        by (unfold N; apply Z.mul_lt_mono_pos_r; lia).
      assert (2 ^ 52 * 2 ^ 54 <= Zpos m2 * 2 ^ 54)
        by (apply Z.mul_le_mono_nonneg_r; lia).
      change (2 ^ 53 * 2 ^ 53) with (2 ^ 52 * 2 ^ 54) in *. lia.
  - apply new_location_located; lia.
  - unfold SpecFloat.emin, prec, emax. lia.
Qed.

Lemma inject_Z_nonzero z : z <> 0 -> ~ (inject_Z z == 0)%Q.
Proof. unfold Qeq. cbn. lia. Qed.

Lemma Qpower_2_diff x y :
  0 <= x -> 0 <= y -> (Qpower 2 (x - y) == inject_Z (2 ^ x) / inject_Z (2 ^ y))%Q.
Proof.
  intros Hx Hy. rewrite Qpower_minus by discriminate.
  rewrite !Zpower_Qpower by assumption. reflexivity.
Qed.

Lemma Qpower_2_pos e : (0 < Qpower 2 e)%Q.
Proof. apply Qpower_0_lt. reflexivity. Qed.

(** [a / p <= (b / p) / c] from [c * a <= b], for integers over positive
    denominators. *)
Lemma Qle_over a b c p :
  0 < p -> 0 < c -> c * a <= b ->
  (inject_Z a / inject_Z p <= inject_Z b / inject_Z p * / inject_Z c)%Q.
Proof.
  intros Hp Hc Hab.
  assert (Hp' : (0 < inject_Z p)%Q) by (change 0%Q with (inject_Z 0); rewrite <- Zlt_Qlt; lia).
  assert (Hc' : (0 < inject_Z c)%Q) by (change 0%Q with (inject_Z 0); rewrite <- Zlt_Qlt; lia).
  apply Qle_shift_div_r; [exact Hp'|].
  setoid_replace (inject_Z b / inject_Z p * / inject_Z c * inject_Z p)%Q
    with (inject_Z b / inject_Z c)%Q
    by (field; split; apply inject_Z_nonzero; lia).
  apply Qle_shift_div_l; [exact Hc'|].
  rewrite <- inject_Z_mult, <- Zle_Qle. lia.
Qed.

(** The binary64 quotient of two positive integers below [2^53] is the
    float [m * 2^e] nearest to their exact quotient: within half a unit in
    the last place, and within a quarter when it is the least float of its
    binade and the quotient lies below it; hence within a relative distance
    of [2^-53]. *)
Lemma int_div_rounded S n :
  0 < S < 2 ^ 53 -> 0 < n < 2 ^ 53 ->
  exists m e,
    Prim2SF (float_of_int S / float_of_int n) = S754_finite false m e /\
    2 ^ 52 <= Zpos m < 2 ^ 53 /\
    (Qabs (inject_Z (Zpos m) * Qpower 2 e - inject_Z S / inject_Z n)
     <= inject_Z S / inject_Z n * (1 # 2 ^ 53))%Q /\
    (Qabs (inject_Z (Zpos m) * Qpower 2 e - inject_Z S / inject_Z n)
     <= Qpower 2 e * (1 # 2))%Q /\
    (Zpos m = 2 ^ 52 ->
     (inject_Z (Zpos m) * Qpower 2 e - inject_Z S / inject_Z n
      <= Qpower 2 e * (1 # 4))%Q).
Proof.
  intros HS Hn.
  destruct (float_of_int_exact S HS) as (m1 & a1 & E1 & Ha1 & Hm1 & Hd1).
  destruct (float_of_int_exact n Hn) as (m2 & a2 & E2 & Ha2 & Hm2 & Hd2).
  rewrite div_spec, E1, E2.
  destruct (SFdiv_canonical false m1 (- a1) false m2 (- a2) Hd1 Hd2 ltac:(lia))
    as (m & j & Hj & Hr & Hm & Hrel & Hhalf & Hquarter).
  exists m, (- a1 - - a2 - 53 + j). split; [exact Hr|]. split; [exact Hm|].
  replace (- a1 - - a2 - 53 + j) with ((j + a2) - (a1 + 53)) by lia.
  rewrite Qpower_2_diff by lia.
  set (A := Zpos m * 2 ^ j * Zpos m2 - Zpos m1 * 2 ^ 53) in *.
  replace (Zpos m1 * 2 ^ 53 - Zpos m * 2 ^ j * Zpos m2) with (- A) in Hrel, Hhalf
    by (unfold A; ring).
  rewrite Z.abs_opp in Hrel, Hhalf.
  set (P := 2 ^ a1 * 2 ^ 53 * n).
  assert (Hpow1 : 0 < 2 ^ a1) by (apply Z.pow_pos_nonneg; lia).
  assert (Hpow2 : 0 < 2 ^ a2) by (apply Z.pow_pos_nonneg; lia).
  assert (Hpowj : 0 < 2 ^ j) by (apply Z.pow_pos_nonneg; lia).
  assert (HP : 0 < P) by (unfold P; lia).
  assert (Hdiff : (inject_Z (Zpos m) * (inject_Z (2 ^ (j + a2)) / inject_Z (2 ^ (a1 + 53)))
                   - inject_Z S / inject_Z n == inject_Z A / inject_Z P)%Q).
  { unfold A, P. rewrite Hm1, Hm2, !Z.pow_add_r by lia.
    unfold Z.sub. rewrite inject_Z_plus, inject_Z_opp, !inject_Z_mult.
    field. repeat split; apply inject_Z_nonzero; lia. }
  assert (Hexact : (inject_Z S / inject_Z n
                    == inject_Z (Zpos m1 * 2 ^ 53) / inject_Z P)%Q).
  { unfold P. rewrite Hm1, !inject_Z_mult.
    field. repeat split; apply inject_Z_nonzero; lia. }
  assert (Hulp : (inject_Z (2 ^ (j + a2)) / inject_Z (2 ^ (a1 + 53))
                  == inject_Z (2 ^ j * Zpos m2) / inject_Z P)%Q).
  { unfold P. rewrite Hm2, !Z.pow_add_r by lia. rewrite !inject_Z_mult.
    field. repeat split; apply inject_Z_nonzero; lia. }
  rewrite Hdiff, Hulp.
  assert (Habs : (Qabs (inject_Z A / inject_Z P) == inject_Z (Z.abs A) / inject_Z P)%Q).
  { unfold Qdiv. rewrite Qabs_Qmult, Qabs_Qinv.
    rewrite (Qabs_pos (inject_Z P))
      by (change 0%Q with (inject_Z 0); rewrite <- Zle_Qle; lia).
    reflexivity. }
  rewrite Habs, Hexact.
  split; [|split].
  - change (1 # 2 ^ 53)%Q with (/ inject_Z (2 ^ 53))%Q.
    apply Qle_over; lia.
  - change (1 # 2)%Q with (/ inject_Z 2)%Q. apply Qle_over; lia.
  - intros Hbottom. change (1 # 4)%Q with (/ inject_Z 4)%Q.
    apply Qle_over; [lia | lia |]. specialize (Hquarter Hbottom). unfold A. lia.
Qed.

(** ** The nearest binary64 number *)

Lemma nearest_among_multiples (m k : Z) (u x : Q) :
  (0 < u)%Q ->
  (Qabs (inject_Z m * u - x) <= u * (1 # 2))%Q ->
  (Qabs (inject_Z m * u - x) <= Qabs (inject_Z k * u - x))%Q.
Proof.
  intros Hu Hx.
  destruct (Z.lt_trichotomy k m) as [Hlt|[->|Hgt]].
  - assert (Hk : (inject_Z k * u <= (inject_Z m - 1) * u)%Q).
    { assert (H0 : (inject_Z k <= inject_Z (m + -1))%Q)
        by (rewrite <- Zle_Qle; lia).
      rewrite inject_Z_plus in H0. change (inject_Z (-1)) with (-1 # 1)%Q in H0.
      apply Qmult_le_compat_r; lra. }
    revert Hx. apply Qabs_case; intros H1 Hx; apply Qabs_case; intros H2; lra.
  - apply Qle_refl.
  - assert (Hk : ((inject_Z m + 1) * u <= inject_Z k * u)%Q).
    { assert (H0 : (inject_Z (m + 1) <= inject_Z k)%Q)
        by (rewrite <- Zle_Qle; lia).
      rewrite inject_Z_plus in H0. change (inject_Z 1) with (1 # 1)%Q in H0.
      apply Qmult_le_compat_r; lra. }
    revert Hx. apply Qabs_case; intros H1 Hx; apply Qabs_case; intros H2; lra.
Qed.

Lemma nearest_among_finer (m k : Z) (u v x : Q) :
  2 ^ 52 <= m -> Z.abs k < 2 ^ 53 ->
  (0 < v)%Q -> (v <= u * (1 # 2))%Q ->
  (Qabs (inject_Z m * u - x) <= u * (1 # 2))%Q ->
  (m = 2 ^ 52 -> (inject_Z m * u - x <= u * (1 # 4))%Q) ->
  (Qabs (inject_Z m * u - x) <= Qabs (inject_Z k * v - x))%Q.
Proof.
  intros Hm Hk Hv Hvu Hx Hbottom.
  assert (Hy : (inject_Z k * v <= (9007199254740991 # 1) * v)%Q).
  { apply Qmult_le_compat_r; [|lra].
    change (9007199254740991 # 1)%Q with (inject_Z (2 ^ 53 - 1)).
    rewrite <- Zle_Qle. lia. }
  destruct (Z.eq_dec m (2 ^ 52)) as [E|Hne].
  - specialize (Hbottom E). rewrite E in *.
    change (inject_Z (2 ^ 52)) with (4503599627370496 # 1)%Q in *.
    revert Hx Hbottom.
    apply Qabs_case; intros H1 Hx Hbottom; apply Qabs_case; intros H2; lra.
  - assert (Hr : ((4503599627370497 # 1) * u <= inject_Z m * u)%Q).
    { apply Qmult_le_compat_r; [|lra].
      change (4503599627370497 # 1)%Q with (inject_Z (2 ^ 52 + 1)).
      rewrite <- Zle_Qle. lia. }
    revert Hx. apply Qabs_case; intros H1 Hx; apply Qabs_case; intros H2; lra.
Qed.

Lemma Qpower_2_shift e d :
  0 <= d -> (Qpower 2 (e + d) == inject_Z (2 ^ d) * Qpower 2 e)%Q.
Proof.
  intros Hd. rewrite Qpower_plus by discriminate.
  rewrite (Zpower_Qpower 2 d) by exact Hd. apply Qmult_comm.
Qed.

(** No number [k * 2^ey] with a mantissa [k] below [2^53] is nearer to [x]
    than [m * 2^e], a number of 53 digits within half a unit in the last
    place of [x]. *)
Lemma nearest_among_floats (m e : Z) (x : Q) :
  2 ^ 52 <= m ->
  (Qabs (inject_Z m * Qpower 2 e - x) <= Qpower 2 e * (1 # 2))%Q ->
  (m = 2 ^ 52 -> (inject_Z m * Qpower 2 e - x <= Qpower 2 e * (1 # 4))%Q) ->
  forall k ey, Z.abs k < 2 ^ 53 ->
    (Qabs (inject_Z m * Qpower 2 e - x) <= Qabs (inject_Z k * Qpower 2 ey - x))%Q.
Proof.
  intros Hm Hx Hbottom k ey Hk.
  pose proof (Qpower_2_pos e) as Hu.
  destruct (Z.le_gt_cases e ey) as [Hle|Hgt].
  - replace ey with (e + (ey - e)) by lia.
    rewrite Qpower_2_shift by lia.
    rewrite Qmult_assoc, <- inject_Z_mult.
    apply nearest_among_multiples; assumption.
  - apply nearest_among_finer; try assumption.
    + apply Qpower_2_pos.
    + replace e with (ey + (e - ey)) by lia.
      rewrite Qpower_2_shift by lia.
      pose proof (Qpower_2_pos ey) as Hv.
      assert (H2 : ((2 # 1) * Qpower 2 ey <= inject_Z (2 ^ (e - ey)) * Qpower 2 ey)%Q).
      { apply Qmult_le_compat_r; [|lra].
        change (2 # 1)%Q with (inject_Z (2 ^ 1)). rewrite <- Zle_Qle.
        apply Z.pow_le_mono_r; lia. }
      lra.
Qed.

Lemma finite_is_finite x s :
  sf_zero_or_finite s (Prim2SF x) -> is_finite x = true.
Proof.
  unfold is_finite, is_nan, is_infinity. rewrite !eqb_spec, abs_spec.
  destruct (Prim2SF x) as [s'|s'| |s' m e]; cbn [sf_zero_or_finite]; try contradiction;
    intros _.
  - reflexivity.
  - unfold SFeqb, SFcompare, SFabs.
    destruct s'; rewrite Z.compare_refl;
      change (Pos.compare_cont Eq m m) with (Pos.compare m m);
      rewrite Pos.compare_refl; reflexivity.
Qed.

(** A finite binary64 number is [k * 2^e] for a mantissa [k] below [2^53]
    in absolute value. *)
Lemma finite_float_value y :
  is_finite y = true ->
  exists k e, Z.abs k < 2 ^ 53 /\ (Q_of_float y == inject_Z k * Qpower 2 e)%Q.
Proof.
  unfold is_finite, is_nan, is_infinity, Q_of_float.
  rewrite !eqb_spec, abs_spec.
  pose proof (Prim2SF_valid y) as Hvalid.
  destruct (Prim2SF y) as [s|s| |s m e].
  - intros _. exists 0, 0. split; [reflexivity | reflexivity].
  - destruct s; discriminate.
  - discriminate.
  - intros _. exists (cond_Zopp s (Zpos m)), e. split; [|reflexivity].
    cbn [SpecFloat.valid_binary] in Hvalid. unfold bounded, canonical_mantissa in Hvalid.
    apply andb_prop in Hvalid. destruct Hvalid as [Hc _].
    apply Z.eqb_eq in Hc. unfold fexp, SpecFloat.emin, prec, emax in Hc.
    destruct (digits2_pos_spec m) as [_ Hhi].
    assert (Hd : Zpos (digits2_pos m) <= 53) by lia.
    assert (2 ^ Zpos (digits2_pos m) <= 2 ^ 53) by (apply Z.pow_le_mono_r; lia).
    destruct s; cbn [cond_Zopp]; lia.
Qed.

Lemma Qsum_differences b : forall adaps,
  (Qsum (map (fun ada => inject_Z (ada - b)%Z) adaps)
   == inject_Z (total (map (fun ada => (ada - b)%Z) adaps)))%Q.
Proof.
  induction adaps as [|ada rest IH]; cbn [map Qsum total fold_right].
  - reflexivity.
  - fold (total (map (fun ada => ada - b) rest)).
    rewrite IH, inject_Z_plus. reflexivity.
Qed.

Lemma spec_model_gain_total adaps :
  (spec_model_gain adaps
   == inject_Z (total (map (fun ada => (ada - static_baseline)%Z) adaps))
      / inject_Z (Z.of_nat (List.length adaps)))%Q.
Proof.
  unfold spec_model_gain, exact_mean. rewrite length_map.
  change spec_static_baseline with static_baseline.
  rewrite Qsum_differences. reflexivity.
Qed.

(** The gain the program computes for a curve is the exact mean of its
    counts over the baseline, rounded once to the nearest binary64 number. *)
Lemma gain_over_static_rounds adaps :
  adaps <> [] -> Z.of_nat (List.length adaps) < 2 ^ 45 ->
  Forall (fun ada => static_baseline <= ada <= key_length) adaps ->
  nearest_binary64 (gain_over_static adaps) (spec_model_gain adaps) /\
  within_unit_roundoff (gain_over_static adaps) (spec_model_gain adaps).
Proof.
  intros Hne Hlen Hrange. unfold nearest_binary64, within_unit_roundoff.
  assert (Hspec := spec_model_gain_total adaps).
  unfold gain_over_static, mean. rewrite length_map.
  assert (Hdiff : Forall (fun x => 0 <= x <= 256)
                         (map (fun ada => ada - static_baseline) adaps)).
  { apply Forall_map. eapply Forall_impl; [|exact Hrange]. cbn beta.
    unfold static_baseline, key_length. intros a Ha.
    change (512 / 2) with 256 in *. lia. }
  apply total_bounds in Hdiff. rewrite length_map in Hdiff.
  assert (Hpos : 0 < Z.of_nat (List.length adaps))
    by (destruct adaps; [congruence | cbn [List.length]; lia]).
  set (S := total (map (fun ada => ada - static_baseline) adaps)) in *.
  set (n := Z.of_nat (List.length adaps)) in *.
  set (q := spec_model_gain adaps) in *.
  assert (H53 : 256 * 2 ^ 45 = 2 ^ 53) by reflexivity.
  assert (H63 : 2 ^ 53 < 2 ^ 63) by reflexivity.
  assert (H45 : 2 ^ 45 < 2 ^ 53) by reflexivity.
  destruct (Z.eq_dec S 0) as [E|HS].
  - rewrite E in *. rewrite zero_div_int by lia.
    assert (Hq : (q == 0)%Q).
    { rewrite Hspec. change (inject_Z 0) with 0%Q. unfold Qdiv.
      apply Qmult_0_l. }
    change (Q_of_float 0) with 0%Q.
    assert (Hzero : (Qabs (0 - q) == 0)%Q) by (rewrite Hq; reflexivity).
    split; (split; [reflexivity|]).
    + intros y _. rewrite Hzero. apply Qabs_nonneg.
    + rewrite Hzero, Hq. discriminate.
  - destruct (int_div_rounded S n ltac:(lia) ltac:(lia))
      as (m & e & Hsf & Hm & Hrel & Hhalf & Hquarter).
    assert (Hfin : is_finite (float_of_int S / float_of_int n) = true)
      by (apply (finite_is_finite _ false); rewrite Hsf; reflexivity).
    assert (Hval : Q_of_float (float_of_int S / float_of_int n)
                   = (inject_Z (Zpos m) * Qpower 2 e)%Q)
      by (unfold Q_of_float; rewrite Hsf; reflexivity).
    rewrite Hval. rewrite <- Hspec in Hrel, Hhalf, Hquarter.
    split; (split; [exact Hfin|]).
    + intros y Hy. destruct (finite_float_value y Hy) as (k & ey & Hk & ->).
      apply nearest_among_floats; [lia | exact Hhalf | exact Hquarter | exact Hk].
    + rewrite (Qabs_pos q); [exact Hrel|].
      rewrite Hspec. apply Qle_shift_div_l.
      * change 0%Q with (inject_Z 0). rewrite <- Zlt_Qlt. lia.
      * rewrite Qmult_0_l. change 0%Q with (inject_Z 0). rewrite <- Zle_Qle. lia.
Qed.

(** ** Lists paired by position *)

Lemma nonempty_of_length {A B : Type} (a : list A) (b : list B) :
  List.length a = List.length b -> b <> [] -> a <> [].
Proof. intros Hl Hb ->. destruct b; [congruence | discriminate]. Qed.

Lemma map_fst_combine {A B : Type} (l1 : list A) : forall l2 : list B,
  List.length l2 = List.length l1 -> map fst (combine l1 l2) = l1.
Proof.
  induction l1 as [|x l1 IH]; intros [|y l2]; cbn [List.length combine map fst];
    try discriminate; [reflexivity|].
  intros [= Hl]. rewrite (IH l2 Hl). reflexivity.
Qed.

Lemma Forall2_combine_map {A B C : Type} (R : B -> C -> Prop) (f : C -> B) :
  forall (keys : list A) (rows : list C),
    List.length rows = List.length keys ->
    Forall (fun r => R (f r) r) rows ->
    Forall2 (fun e r => R (snd e) r) (combine keys (map f rows)) rows.
Proof.
  induction keys as [|k keys IH]; intros [|r rows]; cbn [List.length combine map];
    try discriminate; [constructor|].
  intros [= Hl] Hall. inversion Hall as [|r' rows' Hr Hrows]; subst.
  constructor; [exact Hr | apply IH; assumption].
Qed.

(** ** The sweep *)

Section SweepFacts.

Context {G : Type} `{RandomSource G}.
Variable log2 : float -> float.

(** A count that was computed lies between the static baseline and the key
    length. *)
Lemma grid_point_range original_key model p g ada g' :
  grid_point log2 original_key model p g = inr (ada, g') ->
  static_baseline <= ada <= key_length.
Proof.
  unfold grid_point, bind, draw, lift.
  destruct (apply_noise original_key p model g) as [nk g1].
  destruct (qber original_key nk) as [e|q]; [discriminate|].
  set (ent := (1 - shannon_entropy log2 q)%float).
  change (static_baseline <= ada <= key_length) with (256 <= ada <= 512).
  destruct (retained_bits_cases ent) as [E|[E|[E|E]]]; rewrite E;
    intros [= <- _]; lia.
Qed.

Lemma curve_loop_appends original_key model : forall noise_range adaps g out g',
  curve_loop log2 original_key model noise_range adaps g = inr (out, g') ->
  exists new,
    out = (adaps ++ new)%list /\
    List.length new = List.length noise_range /\
    Forall (fun ada => static_baseline <= ada <= key_length) new.
Proof.
  intros noise_range.
  induction noise_range as [|p rest IH]; intros adaps g out g'; cbn [curve_loop].
  - unfold ret. intros [= <- _]. exists []. rewrite app_nil_r. auto.
  - unfold bind at 1.
    destruct (grid_point log2 original_key model p g) as [e|[ada g1]] eqn:Hp;
      [discriminate|].
    intros Hrest. apply IH in Hrest. destruct Hrest as (new & -> & Hlen & Hall).
    exists (ada :: new). rewrite <- app_assoc. cbn [app List.length].
    split; [reflexivity|]. split; [congruence|].
    constructor; [|assumption]. eapply grid_point_range. exact Hp.
Qed.

Lemma models_loop_appends original_key noise_range :
  forall models matrix gains g matrix' gains' g',
    models_loop log2 original_key noise_range models matrix gains g
    = inr ((matrix', gains'), g') ->
    exists rows,
      matrix' = (matrix ++ rows)%list /\
      List.length rows = List.length models /\
      Forall (curve_ok noise_range) rows /\
      Forall (fun e => In e gains \/
                       exists adaps, In adaps rows /\
                                     snd e = gain_over_static adaps) gains' /\
      (models = [] -> gains' = gains) /\
      (NoDup models -> (forall m, In m models -> ~ In m (map fst gains)) ->
       gains' = (gains ++ combine models (map gain_over_static rows))%list).
Proof.
  induction models as [|model rest IH]; intros matrix gains g matrix' gains' g';
    cbn [models_loop].
  - unfold ret. intros [= <- <- _]. exists [].
    rewrite app_nil_r. cbn [combine]. rewrite app_nil_r.
    repeat split; try constructor; auto.
    apply Forall_forall. intros e He. left. exact He.
  - unfold bind at 1.
    destruct (curve_loop log2 original_key model noise_range [] g)
      as [e|[adaps g1]] eqn:Hc; [discriminate|].
    apply curve_loop_appends in Hc. destruct Hc as (new & Hnew & Hlen & Hall).
    cbn [app] in Hnew. subst new.
    intros Hrest. apply IH in Hrest.
    destruct Hrest as (rows & -> & Hrows & Hok & Hgains & _ & Hfresh).
    exists (adaps :: rows). rewrite <- app_assoc. cbn [app List.length].
    split; [reflexivity|]. split; [congruence|].
    split; [constructor; [split|]; assumption|].
    split; [|split; [discriminate|]].
    + eapply Forall_impl; [|exact Hgains]. cbn beta.
      intros e [He|(row & Hrow & He)].
      * apply dict_set_entries in He. destruct He as [He|He]; [left; exact He|].
        subst e. right. exists adaps. split; [left; reflexivity | reflexivity].
      * right. exists row. split; [right; exact Hrow | exact He].
    + intros Hnodup Hdisj. inversion Hnodup as [|? ? Hnotin Hnodup']; subst.
      rewrite Hfresh.
      * rewrite dict_set_fresh by (apply Hdisj; left; reflexivity).
        rewrite <- app_assoc. reflexivity.
      * assumption.
      * intros m Hm. rewrite dict_set_fresh by (apply Hdisj; left; reflexivity).
        rewrite map_app, in_app_iff. cbn [map fst In].
        intros [Hin|[->|[]]]; [|contradiction].
        exact (Hdisj m (or_intror Hm) Hin).
Qed.

Lemma models_loop_gains_nonempty original_key noise_range :
  forall models matrix gains g matrix' gains' g',
    models_loop log2 original_key noise_range models matrix gains g
    = inr ((matrix', gains'), g') ->
    gains <> [] \/ models <> [] -> gains' <> [].
Proof.
  induction models as [|model rest IH]; intros matrix gains g matrix' gains' g';
    cbn [models_loop].
  - unfold ret. intros [= _ <- _] [Hg|Hm]; congruence.
  - unfold bind at 1.
    destruct (curve_loop log2 original_key model noise_range [] g)
      as [e|[adaps g1]]; [discriminate|].
    intros Hrest _. eapply IH; [exact Hrest|]. left.
    destruct gains as [|[k v] gains]; cbn [dict_set]; [discriminate|].
    destruct (String.eqb k model); discriminate.
Qed.

(** On a non-empty key no grid point raises: the sweep runs to its end. *)
Lemma grid_point_completes original_key model p g :
  original_key <> EmptyString ->
  exists ada g', grid_point log2 original_key model p g = inr (ada, g').
Proof.
  intros Hkey. unfold grid_point, bind, draw, lift.
  destruct (apply_noise original_key p model g) as [nk g1].
  unfold qber, true_divide.
  destruct (Z.eqb_spec (len original_key) 0) as [E|_];
    [apply len_zero_iff in E; contradiction|].
  set (ent := (1 - shannon_entropy log2 _)%float).
  destruct (retained_bits_cases ent) as [E|[E|[E|E]]]; rewrite E; eauto.
Qed.

Lemma curve_loop_completes original_key model :
  original_key <> EmptyString ->
  forall noise_range adaps g,
    exists out g',
      curve_loop log2 original_key model noise_range adaps g = inr (out, g').
Proof.
  intros Hkey noise_range.
  induction noise_range as [|p rest IH]; intros adaps g; cbn [curve_loop].
  - unfold ret. eauto.
  - unfold bind at 1.
    destruct (grid_point_completes original_key model p g Hkey) as (ada & g1 & ->).
    apply IH.
Qed.

Lemma models_loop_completes original_key noise_range :
  original_key <> EmptyString ->
  forall models matrix gains g,
    exists matrix' gains' g',
      models_loop log2 original_key noise_range models matrix gains g
      = inr ((matrix', gains'), g').
Proof.
  intros Hkey models.
  induction models as [|model rest IH]; intros matrix gains g; cbn [models_loop].
  - unfold ret. eauto.
  - unfold bind at 1.
    destruct (curve_loop_completes original_key model Hkey noise_range [] g)
      as (adaps & g1 & ->).
    apply IH.
Qed.

End SweepFacts.

Lemma leb_refl_number x : is_nan x = false -> (x <=? x)%float = true.
Proof.
  unfold is_nan. rewrite eqb_spec, leb_spec. unfold SFeqb, SFleb.
  destruct (SFcompare (Prim2SF x) (Prim2SF x)) as [[| |]|]; cbn; congruence.
Qed.

Section SweepTheorems.

Context {G : Type} `{RandomSource G}.
Variable log2 : float -> float.

(** What a completed sweep went through. *)
Lemma unified_comparison_completed models noise_range original_key g st g' :
  unified_comparison log2 models noise_range original_key g = inr (st, g') ->
  exists best worst,
    models_loop log2 original_key noise_range models [] [] g
    = inr ((adaptive_matrix st, model_gains st), g') /\
    py_max (model_gains st) = inr best /\
    py_min (model_gains st) = inr worst /\
    best_model st = fst best /\ best_gain st = snd best /\
    worst_model st = fst worst /\ worst_gain st = snd worst.
Proof.
  unfold unified_comparison, bind, lift, ret.
  destruct (models_loop log2 original_key noise_range models [] [] g)
    as [e|[[matrix gains] g1]]; [discriminate|]. cbn [fst snd].
  destruct (reduce_axis0 Z.min matrix) as [e|mins]; [discriminate|].
  destruct (reduce_axis0 Z.max matrix) as [e|maxs]; [discriminate|].
  destruct (py_max gains) as [e|best] eqn:Hbest; [discriminate|].
  destruct (py_min gains) as [e|worst] eqn:Hworst; [discriminate|].
  intros [= <- <-]. cbn. exists best, worst. auto 10.
Qed.

(** After a sweep over a non-empty grid every gain is a number, and none is
    negative. *)
Lemma gains_signed models noise_range original_key g st g' :
  noise_range <> [] -> Z.of_nat (List.length noise_range) < 2 ^ 55 ->
  unified_comparison log2 models noise_range original_key g = inr (st, g') ->
  Forall (fun e => sf_signed false (Prim2SF (snd e))) (model_gains st).
Proof.
  intros Hne Hlen Hrun.
  apply unified_comparison_completed in Hrun.
  destruct Hrun as (best & worst & Hloop & _).
  apply models_loop_appends in Hloop.
  destruct Hloop as (rows & _ & _ & Hok & Hgains & _).
  eapply Forall_impl; [|exact Hgains]. cbn beta.
  intros e [[]|(adaps & Hin & ->)].
  rewrite Forall_forall in Hok. destruct (Hok adaps Hin) as [Hl Hr].
  apply gain_over_static_signed.
  - intros ->. destruct noise_range; [congruence | discriminate].
  - rewrite Hl. assumption.
  - assumption.
Qed.

(** C3: after a completed sweep over distinct models and a non-empty grid,
    [model_gains] has one entry per model, in the order of the list, and
    the gain of each model is the mean over the grid of its retained-bit
    counts minus the static baseline: the binary64 number the program
    stores is the exact rational mean of the specification rounded once,
    that is, no binary64 number is nearer to that mean, and its relative
    distance from it is at most [2^-53] (the grid being short enough for the
    sum to be exact, as any grid is that fits a machine).  No gain exceeds that of [best_model] and none is below that
    of [worst_model]; and each of the two is the first model of the list
    with its gain: the models listed before [best_model] have strictly
    smaller gains, those before [worst_model] strictly greater ones. *)
Theorem best_and_worst_model (models : list string) (noise_range : list float)
    (original_key : string) (g g' : G) (st : summary) :
  NoDup models ->
  noise_range <> [] ->
  Z.of_nat (List.length noise_range) < 2 ^ 55 ->
  unified_comparison log2 models noise_range original_key g = inr (st, g') ->
  map fst (model_gains st) = models /\
  (Z.of_nat (List.length noise_range) < 2 ^ 45 ->
   Forall2 (fun e adaps =>
              nearest_binary64 (snd e) (spec_model_gain adaps) /\
              within_unit_roundoff (snd e) (spec_model_gain adaps))
           (model_gains st) (adaptive_matrix st)) /\
  model_gains st = combine models (map gain_over_static (adaptive_matrix st)) /\
  List.length (adaptive_matrix st) = List.length models /\
  Forall (fun adaps => List.length adaps = List.length noise_range)
         (adaptive_matrix st) /\
  Forall (fun e => (snd e <=? best_gain st)%float = true) (model_gains st) /\
  Forall (fun e => (worst_gain st <=? snd e)%float = true) (model_gains st) /\
  (exists pre post,
      model_gains st = (pre ++ (best_model st, best_gain st) :: post)%list /\
      Forall (fun e => (snd e <? best_gain st)%float = true) pre) /\
  (exists pre post,
      model_gains st = (pre ++ (worst_model st, worst_gain st) :: post)%list /\
      Forall (fun e => (worst_gain st <? snd e)%float = true) pre).
Proof.
  intros Hnodup Hne Hlen Hrun.
  pose proof (gains_signed _ _ _ _ _ _ Hne Hlen Hrun) as Hsigned.
  assert (Hnum : Forall (fun e => is_nan (snd e) = false) (model_gains st)).
  { eapply Forall_impl; [|exact Hsigned]. cbn beta. intros e.
    apply sf_signed_number. }
  apply unified_comparison_completed in Hrun.
  destruct Hrun as ([bm bg] & [wm wg] & Hloop & Hmax & Hmin & -> & -> & -> & ->).
  cbn [fst snd].
  apply models_loop_appends in Hloop.
  destruct Hloop as (rows & Hrows & Hcount & Hok & _ & _ & Hfresh).
  cbn [app] in Hrows. rewrite Hrows.
  assert (Hgains : model_gains st = combine models (map gain_over_static rows))
    by (apply Hfresh; [assumption | intros m _ []]).
  split; [rewrite Hgains; apply map_fst_combine; rewrite length_map; exact Hcount|].
  split.
  { intros Hshort. rewrite Hgains. apply (Forall2_combine_map
               (fun x adaps =>
                  nearest_binary64 x (spec_model_gain adaps) /\
                  within_unit_roundoff x (spec_model_gain adaps)));
      [exact Hcount|].
    eapply Forall_impl; [|exact Hok]. cbn beta. intros adaps [Hl Hr].
    apply gain_over_static_rounds; [|rewrite Hl; exact Hshort | exact Hr].
    apply (nonempty_of_length _ noise_range); assumption. }
  split; [exact Hgains|].
  split; [assumption|].
  split; [eapply Forall_impl; [|exact Hok]; intros a [Ha _]; exact Ha|].
  destruct (py_max_first_greatest _ _ Hnum Hmax) as (pre & post & E & Hpre & Hpost).
  destruct (py_min_first_least _ _ Hnum Hmin) as (pre' & post' & E' & Hpre' & Hpost').
  cbn [snd] in *.
  assert (Hbg : is_nan bg = false).
  { rewrite Forall_forall in Hnum. apply (Hnum (bm, bg)).
    rewrite E. apply in_elt. }
  assert (Hwg : is_nan wg = false).
  { rewrite Forall_forall in Hnum. apply (Hnum (wm, wg)).
    rewrite E'. apply in_elt. }
  split; [|split; [|split]].
  - rewrite E. apply Forall_app. split.
    + eapply Forall_impl; [|exact Hpre]. intros e. apply ltb_leb.
    + constructor; [apply leb_refl_number; assumption | assumption].
  - rewrite E'. apply Forall_app. split.
    + eapply Forall_impl; [|exact Hpre']. intros e. apply ltb_leb.
    + constructor; [apply leb_refl_number; assumption | assumption].
  - exists pre, post. split; assumption.
  - exists pre', post'. split; assumption.
Qed.

Lemma half_leb_adaptive_amplification ent :
  (0.5 <=? adaptive_amplification ent)%float = true.
Proof.
  destruct (adaptive_amplification_cases ent) as [E|[E|[E|E]]]; rewrite E;
    reflexivity.
Qed.

(** C10: the fraction is never below 0.5, so in every completed sweep each
    retained-bit count is at least the static baseline [key_length // 2];
    over a non-empty grid every gain over the baseline is then non-negative,
    the gain of the worst model included. *)
Theorem adaptive_never_below_static (models : list string)
    (noise_range : list float) (original_key : string) (g g' : G)
    (st : summary) :
  noise_range <> [] ->
  Z.of_nat (List.length noise_range) < 2 ^ 55 ->
  unified_comparison log2 models noise_range original_key g = inr (st, g') ->
  (forall ent, (0.5 <=? adaptive_amplification ent)%float = true) /\
  Forall (Forall (fun ada => key_length / 2 <= ada)) (adaptive_matrix st) /\
  Forall (fun e => (0 <=? snd e)%float = true) (model_gains st) /\
  (0 <=? worst_gain st)%float = true /\
  (0 <=? best_gain st)%float = true.
Proof.
  intros Hne Hlen Hrun.
  pose proof (gains_signed _ _ _ _ _ _ Hne Hlen Hrun) as Hsigned.
  assert (Hnonneg : Forall (fun e => (0 <=? snd e)%float = true) (model_gains st)).
  { eapply Forall_impl; [|exact Hsigned]. cbn beta. intros e.
    apply zero_leb_signed. }
  apply unified_comparison_completed in Hrun.
  destruct Hrun as (best & worst & Hloop & Hmax & Hmin & _ & -> & _ & ->).
  apply models_loop_appends in Hloop.
  destruct Hloop as (rows & Hrows & _ & Hok & _).
  cbn [app] in Hrows.
  split; [exact half_leb_adaptive_amplification|].
  split; [|split; [assumption|]].
  - rewrite Hrows. eapply Forall_impl; [|exact Hok]. intros a [_ Ha].
    eapply Forall_impl; [|exact Ha]. cbn beta. fold static_baseline. lia.
  - rewrite Forall_forall in Hnonneg. split.
    + apply (Hnonneg worst). eapply select_member. exact Hmin.
    + apply (Hnonneg best). eapply select_member. exact Hmax.
Qed.

(** With a non-empty key and at least one model the sweep completes. *)
Lemma unified_comparison_completes models noise_range original_key g :
  original_key <> EmptyString -> models <> [] ->
  exists st g',
    unified_comparison log2 models noise_range original_key g = inr (st, g').
Proof.
  intros Hkey Hmodels.
  destruct (models_loop_completes log2 original_key noise_range Hkey models [] [] g)
    as (matrix & gains & g' & Hloop).
  pose proof (models_loop_appends _ _ _ _ _ _ _ _ _ _ Hloop)
    as (rows & Hrows & Hcount & _).
  pose proof (models_loop_gains_nonempty _ _ _ _ _ _ _ _ _ _ Hloop
                (or_intror Hmodels)) as Hgains.
  unfold unified_comparison, bind, lift, ret. rewrite Hloop. cbn [fst snd].
  destruct matrix as [|row matrix];
    [destruct models, rows; cbn in *; congruence|].
  destruct gains as [|kv gains]; [congruence|].
  cbn [reduce_axis0 py_max py_min select]. eauto.
Qed.

End SweepTheorems.

(** ** Empty inputs *)

Section EmptyInputs.

Context {G : Type} `{RandomSource G}.
Variable log2 : float -> float.



End EmptyInputs.

(** ** The script's own sweep, on a concrete run *)

Lemma NoDup_noise_models : NoDup noise_models.
Proof.
  unfold noise_models.
  repeat constructor; cbn [In]; intros Hin;
    repeat destruct Hin as [Hin|Hin]; try discriminate Hin; exact Hin.
Qed.

Lemma noise_range_nonempty : noise_range <> [].
Proof. vm_compute. discriminate. Qed.

Lemma noise_range_length : Z.of_nat (List.length noise_range) < 2 ^ 55.
Proof. vm_compute. reflexivity. Qed.

Lemma noise_range_short : Z.of_nat (List.length noise_range) < 2 ^ 45.
Proof. vm_compute. reflexivity. Qed.

Lemma demo_run_completes :
  unified_comparison approx_log2 noise_models noise_range demo_key 7
  = inr (demo_summary, demo_state).
Proof. vm_compute. reflexivity. Qed.

Lemma best_and_worst_model_witness :
  map fst (model_gains demo_summary) = noise_models /\
  Forall2 (fun e adaps =>
             nearest_binary64 (snd e) (spec_model_gain adaps) /\
             within_unit_roundoff (snd e) (spec_model_gain adaps))
          (model_gains demo_summary) (adaptive_matrix demo_summary) /\
  model_gains demo_summary
  = combine noise_models (map gain_over_static (adaptive_matrix demo_summary)) /\
  List.length (adaptive_matrix demo_summary) = List.length noise_models /\
  Forall (fun adaps => List.length adaps = List.length noise_range)
         (adaptive_matrix demo_summary) /\
  Forall (fun e => (snd e <=? best_gain demo_summary)%float = true)
         (model_gains demo_summary) /\
  Forall (fun e => (worst_gain demo_summary <=? snd e)%float = true)
         (model_gains demo_summary) /\
  (exists pre post,
      model_gains demo_summary
      = (pre ++ (best_model demo_summary, best_gain demo_summary) :: post)%list /\
      Forall (fun e => (snd e <? best_gain demo_summary)%float = true) pre) /\
  (exists pre post,
      model_gains demo_summary
      = (pre ++ (worst_model demo_summary, worst_gain demo_summary) :: post)%list /\
      Forall (fun e => (worst_gain demo_summary <? snd e)%float = true) pre).
Proof.
  destruct (best_and_worst_model approx_log2 noise_models noise_range demo_key
              7 demo_state demo_summary
              NoDup_noise_models noise_range_nonempty noise_range_length
              demo_run_completes) as (Hkeys & Hmean & Hrest).
  split; [exact Hkeys|]. split; [exact (Hmean noise_range_short) | exact Hrest].
Defined.

Lemma adaptive_never_below_static_witness :
  (forall ent, (0.5 <=? adaptive_amplification ent)%float = true) /\
  Forall (Forall (fun ada => key_length / 2 <= ada)) (adaptive_matrix demo_summary) /\
  Forall (fun e => (0 <=? snd e)%float = true) (model_gains demo_summary) /\
  (0 <=? worst_gain demo_summary)%float = true /\
  (0 <=? best_gain demo_summary)%float = true.
Proof.
  exact (adaptive_never_below_static approx_log2 noise_models noise_range
           demo_key 7 demo_state demo_summary
           noise_range_nonempty noise_range_length demo_run_completes).
Defined.

(** * Further properties of the noise channel *)

Lemma append_nil_r (s : string) : s ++ EmptyString = s.
Proof. induction s as [|c s IH]; cbn [append]; congruence. Qed.

Lemma SFleb_ltb_false a b : SFleb a b = true -> SFltb b a = false.
Proof.
  unfold SFleb, SFltb, SFcompare.
  destruct a as [[|]|[|]| |[|] ? ?], b as [[|]|[|]| |[|] ? ?];
    try (simpl; congruence);
    change (Pos.compare_cont Eq) with Pos.compare; intros;
    cmp_cases; simpl in *; try congruence; try lia.
Qed.

Lemma leb_ltb_false x y : (x <=? y)%float = true -> (y <? x)%float = false.
Proof. rewrite leb_spec, ltb_spec. apply SFleb_ltb_false. Qed.

Lemma pointwise_impl (R S : ascii -> ascii -> bool) :
  (forall c d, R c d = true -> S c d = true) ->
  forall a b, pointwise R a b = true -> pointwise S a b = true.
Proof.
  intros HRS a. induction a as [|c a IH]; intros [|d b]; cbn [pointwise]; auto.
  rewrite !andb_true_iff. intros [Hcd Hab]. auto.
Qed.

Lemma pointwise_length R a : forall b,
  pointwise R a b = true -> String.length a = String.length b.
Proof.
  induction a as [|c a IH]; intros [|d b]; cbn [pointwise String.length];
    try discriminate; [reflexivity|].
  rewrite andb_true_iff. intros [_ Hab]. f_equal. auto.
Qed.

Lemma pointwise_binary a : forall b,
  pointwise kept_or_binary a b = true -> binary a = true -> binary b = true.
Proof.
  induction a as [|c a IH]; intros [|d b]; cbn [pointwise binary];
    try discriminate; [reflexivity|].
  rewrite !andb_true_iff. intros [Hcd Hab] [Hc Ha]. split; [|auto].
  unfold kept_or_binary in Hcd. apply orb_true_iff in Hcd.
  destruct Hcd as [E|E]; [|exact E].
  apply Ascii.eqb_eq in E. subst d. exact Hc.
Qed.

Lemma pointwise_differs_mismatches a : forall b,
  pointwise differs a b = true -> mismatches a b = len a.
Proof.
  unfold len.
  induction a as [|c a IH]; intros [|d b]; cbn [pointwise mismatches String.length];
    try discriminate; [reflexivity|].
  rewrite andb_true_iff. unfold differs at 1. intros [Hcd Hab].
  apply negb_true_iff in Hcd. rewrite Hcd, (IH b Hab). lia.
Qed.

Section NoiseChannelMore.

Context {G : Type} `{RandomSource G}.

(** A rule that, on the draws the source can make, writes one symbol related
    to the symbol read makes the noisy key related to the key, position by
    position. *)
Lemma apply_noise_loop_pointwise (D : float -> Prop) (R : ascii -> ascii -> bool)
    model p :
  (forall g, D (fst (rand g))) ->
  (forall i bit rnd g, D rnd ->
     exists d, fst (corrupt model p i bit rnd g) = String d EmptyString /\
               R bit d = true) ->
  forall key i noisy g,
    exists out,
      fst (apply_noise_loop model p i key noisy g) = noisy ++ out /\
      pointwise R key out = true.
Proof.
  intros Hdraw Hrule key.
  induction key as [|bit rest IH]; intros i noisy g; cbn [apply_noise_loop].
  - exists EmptyString. rewrite append_nil_r. auto.
  - pose proof (Hdraw g) as Hd. destruct (rand g) as [rnd g1]. cbn [fst] in Hd.
    destruct (Hrule i bit rnd g1 Hd) as (d & Hout & HR).
    destruct (corrupt model p i bit rnd g1) as [o g2]. cbn [fst] in Hout. subst o.
    destruct (IH (S i) (noisy ++ String d EmptyString) g2) as (out & E & Hp).
    exists (String d out). rewrite E, append_assoc. cbn [append pointwise].
    rewrite HR, Hp. auto.
Qed.

(** A rule that writes back the symbol read returns the key. *)
Lemma apply_noise_loop_identity (D : float -> Prop) model p :
  (forall g, D (fst (rand g))) ->
  (forall i bit rnd g, D rnd ->
     fst (corrupt model p i bit rnd g) = String bit EmptyString) ->
  forall key i noisy g,
    fst (apply_noise_loop model p i key noisy g) = noisy ++ key.
Proof.
  intros Hdraw Hrule key.
  induction key as [|bit rest IH]; intros i noisy g; cbn [apply_noise_loop].
  - cbn [fst]. rewrite append_nil_r. reflexivity.
  - pose proof (Hdraw g) as Hd. destruct (rand g) as [rnd g1]. cbn [fst] in Hd.
    pose proof (Hrule i bit rnd g1 Hd) as Hout.
    destruct (corrupt model p i bit rnd g1) as [o g2]. cbn [fst] in Hout. subst o.
    rewrite IH, append_assoc. reflexivity.
Qed.

Lemma corrupt_pass_through model p i bit rnd g :
  model = "Phase Flip" \/ model = "Phase Damping" \/ ~ In model noise_models ->
  corrupt model p i bit rnd g = (String bit EmptyString, g).
Proof.
  intros [->|[->|Hnot]].
  - unfold corrupt. decide_model. reflexivity.
  - unfold corrupt. decide_model. reflexivity.
  - unfold corrupt.
    repeat match goal with
    | |- context [String.eqb model ?name] =>
        destruct (String.eqb_spec model name) as [E|_];
        [exfalso; apply Hnot; rewrite E; cbn; tauto|]
    end.
    reflexivity.
Qed.

(** X1: Phase Flip, Phase Damping and every name that is not one of the
    twelve models return the key as it is, whatever the probability and the
    draws. *)
Theorem pass_through_models (key : string) (p : float) (model : string) (g : G) :
  model = "Phase Flip" \/ model = "Phase Damping" \/ ~ In model noise_models ->
  fst (apply_noise key p model g) = key.
Proof.
  intros Hmodel. unfold apply_noise.
  apply (apply_noise_loop_identity (fun _ => True)); [auto|].
  intros i bit rnd g0 _. rewrite corrupt_pass_through by assumption. reflexivity.
Qed.

Lemma corrupt_kept_or_binary model p i bit rnd g :
  exists d, fst (corrupt model p i bit rnd g) = String d EmptyString /\
            kept_or_binary bit d = true.
Proof.
  unfold corrupt, symbol.
  repeat match goal with
  | |- context [if ?c then _ else _] => destruct c
  | |- context [let (_, _) := ?c in _] => destruct c
  end; cbn [fst]; eexists; (split; [reflexivity|]);
  unfold kept_or_binary; rewrite ?Ascii.eqb_refl; cbn; rewrite ?orb_true_r;
  reflexivity.
Qed.

(** X2: under every model each symbol of the noisy key is the symbol of the
    key at that position, or '0', or '1'; so a key of '0's and '1's stays
    one. *)
Theorem noisy_symbols_kept_or_binary (key : string) (p : float)
    (model : string) (g : G) :
  pointwise kept_or_binary key (fst (apply_noise key p model g)) = true /\
  (binary key = true -> binary (fst (apply_noise key p model g)) = true).
Proof.
  unfold apply_noise.
  destruct (apply_noise_loop_pointwise (fun _ => True) kept_or_binary model p
              (fun _ => I)
              (fun i bit rnd g0 _ => corrupt_kept_or_binary model p i bit rnd g0)
              key 0%nat EmptyString g) as (out & E & Hp).
  rewrite E. cbn [append]. split; [exact Hp|]. apply pointwise_binary. exact Hp.
Qed.

End NoiseChannelMore.

Section NoiseChannelRules.

Context {G : Type} `{RandomSource G}.

(** Settles a rule whose branches test the symbol read against '0' and
    '1'. *)
Ltac settle_rule bit :=
  destruct (Ascii.eqb_spec bit "0") as [->|?];
  [|destruct (Ascii.eqb_spec bit "1") as [->|?]];
  cbn [andb];
  repeat match goal with
  | |- context [if ?c then _ else _] => destruct c
  end;
  cbn [fst]; eexists; (split; [reflexivity|]);
  rewrite ?Ascii.eqb_refl; reflexivity.

Lemma corrupt_kept_or_flipped model p i bit rnd g :
  In model [ "Bit Flip"; "Bit-Phase Flip"; "Collective Correlated";
             "Polarization Mode Dispersion"; "Generalized Amplitude Damping" ] ->
  exists d, fst (corrupt model p i bit rnd g) = String d EmptyString /\
            kept_or_flipped bit d = true.
Proof.
  cbn [In]. intros [<-|[<-|[<-|[<-|[<-|[]]]]]];
    unfold corrupt, kept_or_flipped; decide_model; settle_rule bit.
Qed.

Lemma corrupt_kept_or_damped p i bit rnd g :
  exists d, fst (corrupt "Amplitude Damping" p i bit rnd g) = String d EmptyString /\
            kept_or_damped bit d = true.
Proof.
  unfold corrupt, kept_or_damped; decide_model; settle_rule bit.
Qed.

(** X3: the five flip rules (Bit Flip, Bit-Phase Flip, Collective
    Correlated, Polarization Mode Dispersion, Generalized Amplitude Damping)
    only ever exchange '0' and '1': at each position the noisy key holds the
    symbol of the key or, where that is '0' or '1', the other one; any other
    symbol is left alone. *)
Theorem flip_rules_only_exchange (key : string) (p : float) (model : string)
    (g : G) :
  In model [ "Bit Flip"; "Bit-Phase Flip"; "Collective Correlated";
             "Polarization Mode Dispersion"; "Generalized Amplitude Damping" ] ->
  pointwise kept_or_flipped key (fst (apply_noise key p model g)) = true.
Proof.
  intros Hmodel. unfold apply_noise.
  destruct (apply_noise_loop_pointwise (fun _ => True) kept_or_flipped model p
              (fun _ => I)
              (fun i bit rnd g0 _ =>
                 corrupt_kept_or_flipped model p i bit rnd g0 Hmodel)
              key 0%nat EmptyString g) as (out & E & Hp).
  rewrite E. exact Hp.
Qed.

(** X4: Amplitude Damping only lowers: at each position the noisy key holds
    the symbol of the key, or '0' where the key holds '1'.  It never writes
    a '1' of its own. *)
Theorem amplitude_damping_only_lowers (key : string) (p : float) (g : G) :
  pointwise kept_or_damped key (fst (apply_noise key p "Amplitude Damping" g))
  = true.
Proof.
  unfold apply_noise.
  destruct (apply_noise_loop_pointwise (fun _ => True) kept_or_damped
              "Amplitude Damping" p (fun _ => I)
              (fun i bit rnd g0 _ => corrupt_kept_or_damped p i bit rnd g0)
              key 0%nat EmptyString g) as (out & E & Hp).
  rewrite E. exact Hp.
Qed.

Lemma corrupt_keeps_generator model p i bit rnd g :
  ~ In model drawing_models ->
  snd (corrupt model p i bit rnd g) = g.
Proof.
  intros Hnot. unfold corrupt.
  repeat match goal with
  | |- context [String.eqb model ?name] =>
      destruct (String.eqb_spec model name) as [E|_];
      [first [ exfalso; apply Hnot; rewrite E; cbn; tauto
             | repeat match goal with
               | |- context [if ?c then _ else _] => destruct c
               end; reflexivity ]|]
  end.
  reflexivity.
Qed.

Lemma apply_noise_loop_draws model p :
  ~ In model drawing_models ->
  forall key i noisy g,
    snd (apply_noise_loop model p i key noisy g)
    = after_draws (String.length key) g.
Proof.
  intros Hnot key.
  induction key as [|bit rest IH]; intros i noisy g;
    cbn [apply_noise_loop String.length].
  - reflexivity.
  - unfold after_draws. rewrite Nat.iter_succ_r. fold (after_draws (String.length rest)).
    destruct (rand g) as [rnd g1]. cbn [snd].
    pose proof (corrupt_keeps_generator model p i bit rnd g1 Hnot) as Hg.
    destruct (corrupt model p i bit rnd g1) as [o g2]. cbn [snd] in Hg. subst g2.
    apply IH.
Qed.

(** X5: a model other than Depolarizing, Non-Markovian and Gaussian Bosonic
    makes exactly one uniform draw per symbol and no other: the generator it
    leaves is the one after [len(key)] calls of [rand], whatever the key
    holds and whatever the probability. *)
Theorem one_draw_per_symbol (key : string) (p : float) (model : string) (g : G) :
  ~ In model drawing_models ->
  snd (apply_noise key p model g) = after_draws (String.length key) g.
Proof.
  intros Hnot. unfold apply_noise. apply apply_noise_loop_draws. exact Hnot.
Qed.

Lemma corrupt_zero_probability model i bit rnd g :
  model <> "Gaussian Bosonic" ->
  (0 <=? rnd)%float = true ->
  fst (corrupt model 0 i bit rnd g) = String bit EmptyString.
Proof.
  intros Hmodel Hrnd. apply leb_ltb_false in Hrnd.
  unfold corrupt.
  change (0 * 0.6)%float with 0%float.
  change (0 * 0.4)%float with 0%float.
  change (0 / 2)%float with 0%float.
  rewrite Hrnd, !andb_false_r. cbn [andb].
  destruct (String.eqb_spec model "Gaussian Bosonic") as [E|_]; [contradiction|].
  repeat match goal with
  | |- context [if ?c then _ else _] => destruct c
  end; reflexivity.
Qed.

(** X6: at probability 0, with uniform draws that are never negative (as
    those of [np.random.rand] are), every model but Gaussian Bosonic returns
    the key as it is. *)
Theorem zero_probability_is_identity (key : string) (model : string) (g : G) :
  (forall g', (0 <=? fst (rand g'))%float = true) ->
  model <> "Gaussian Bosonic" ->
  fst (apply_noise key 0 model g) = key.
Proof.
  intros Hdraws Hmodel. unfold apply_noise.
  apply (apply_noise_loop_identity (fun rnd => (0 <=? rnd)%float = true));
    [exact Hdraws|].
  intros i bit rnd g0 Hrnd. apply corrupt_zero_probability; assumption.
Qed.

End NoiseChannelRules.

(** * The even-index gate of Non-Markovian *)

Section NonMarkovian.

Context {G : Type} `{RandomSource G}.

Lemma apply_noise_loop_pointwise_from (R : nat -> ascii -> ascii -> bool) model p :
  (forall i bit rnd g,
     exists d, fst (corrupt model p i bit rnd g) = String d EmptyString /\
               R i bit d = true) ->
  forall key i noisy g,
    exists out,
      fst (apply_noise_loop model p i key noisy g) = noisy ++ out /\
      pointwise_from R i key out = true.
Proof.
  intros Hrule key.
  induction key as [|bit rest IH]; intros i noisy g; cbn [apply_noise_loop].
  - exists EmptyString. rewrite append_nil_r. auto.
  - destruct (rand g) as [rnd g1].
    destruct (Hrule i bit rnd g1) as (d & Hout & HR).
    destruct (corrupt model p i bit rnd g1) as [o g2]. cbn [fst] in Hout. subst o.
    destruct (IH (S i) (noisy ++ String d EmptyString) g2) as (out & E & Hp).
    exists (String d out). rewrite E, append_assoc. cbn [append pointwise_from].
    rewrite HR, Hp. auto.
Qed.

Lemma corrupt_non_markovian p i bit rnd g :
  exists d, fst (corrupt "Non-Markovian" p i bit rnd g) = String d EmptyString /\
            kept_at_odd i bit d = true.
Proof.
  unfold corrupt, kept_at_odd, symbol. decide_model.
  destruct (Nat.modulo i 2 =? 0)%nat.
  - destruct (rnd <? p)%float; cbn [andb orb];
      [destruct (choice01 g) as [[|] g']|]; cbn [fst]; eauto.
  - rewrite andb_false_r. cbn [fst orb]. eexists. split; [reflexivity|].
    apply Ascii.eqb_refl.
Qed.

(** X19: Non-Markovian disturbs even positions only: at every odd position
    (counted from 0) the noisy key holds the symbol of the key, whatever
    the probability and the draws. *)
Theorem non_markovian_spares_odd_positions (key : string) (p : float) (g : G) :
  pointwise_from kept_at_odd 0
    key (fst (apply_noise key p "Non-Markovian" g)) = true.
Proof.
  unfold apply_noise.
  destruct (apply_noise_loop_pointwise_from kept_at_odd "Non-Markovian" p
              (corrupt_non_markovian p) key 0%nat EmptyString g)
    as (out & E & Hp).
  rewrite E. exact Hp.
Qed.

End NonMarkovian.

(** The draws of the linear congruential generator are never negative. *)
Lemma lcg_rand_nonneg (g : Z) : (0 <=? fst (rand g))%float = true.
Proof.
  cbn [rand lcg fst]. unfold lcg_unit. apply zero_leb_signed. rewrite div_spec.
  assert (Hs : 0 <= lcg_next g < 2147483648)
    by (unfold lcg_next; apply Z.mod_pos_bound; lia).
  assert (Hbig : 2147483648 < 2 ^ 63) by reflexivity.
  pose proof (float_of_int_zero_or_finite (lcg_next g) ltac:(lia)) as Hx.
  replace (sign_of (lcg_next g)) with false in Hx
    by (symmetry; unfold sign_of; apply Z.ltb_ge; lia).
  assert (Hy : sf_finite false (Prim2SF 2147483648)) by (vm_compute; reflexivity).
  pose proof (SFdiv_signed _ _ _ _ Hx Hy) as Hd. exact Hd.
Qed.

Lemma pass_through_models_witness :
  fst (apply_noise demo_key 0.3 "Phase Damping" 7) = demo_key /\
  fst (apply_noise demo_key 0.3 "Thermal Relaxation" 7) = demo_key.
Proof.
  split.
  - apply pass_through_models. right. left. reflexivity.
  - apply pass_through_models. right. right. cbn [noise_models In].
    intros Hin. repeat destruct Hin as [Hin|Hin]; try discriminate Hin; exact Hin.
Defined.

Lemma noisy_symbols_kept_or_binary_witness :
  binary (fst (apply_noise demo_key 0.3 "Depolarizing" 7)) = true.
Proof.
  apply (proj2 (noisy_symbols_kept_or_binary demo_key 0.3 "Depolarizing" 7)).
  reflexivity.
Defined.

Lemma flip_rules_only_exchange_witness :
  pointwise kept_or_flipped demo_key
    (fst (apply_noise demo_key 0.3 "Polarization Mode Dispersion" 7)) = true.
Proof.
  apply flip_rules_only_exchange. cbn [In]. tauto.
Defined.

Lemma one_draw_per_symbol_witness :
  snd (apply_noise demo_key 0.3 "Bit Flip" 7) = after_draws 16 7.
Proof.
  apply (one_draw_per_symbol demo_key 0.3 "Bit Flip" 7).
  cbn [drawing_models In].
  intros Hin. repeat destruct Hin as [Hin|Hin]; try discriminate Hin; exact Hin.
Defined.

Lemma zero_probability_is_identity_witness :
  fst (apply_noise demo_key 0 "Depolarizing" 7) = demo_key.
Proof.
  apply (zero_probability_is_identity demo_key "Depolarizing" 7 lcg_rand_nonneg).
  discriminate.
Defined.

(** * Further properties of the metrics *)

Lemma mismatches_bounds a : forall b,
  0 <= mismatches a b <= Z.of_nat (Nat.min (String.length a) (String.length b)).
Proof.
  induction a as [|o a IH]; intros [|n b];
    cbn [mismatches String.length Nat.min]; try lia.
  specialize (IH b). destruct (o =? n)%char; lia.
Qed.

Lemma mismatches_surplus a : forall b extra,
  (String.length a <= String.length b)%nat ->
  mismatches a (b ++ extra) = mismatches a b.
Proof.
  induction a as [|o a IH]; intros [|n b] extra; cbn [String.length];
    intros Hlen; try lia.
  - reflexivity.
  - reflexivity.
  - cbn [append mismatches]. rewrite IH by lia. reflexivity.
Qed.

(** X7: [qber] reads no more of the noisy key than the original is long:
    symbols appended to a noisy key at least as long as the original do not
    change the result. *)
Theorem qber_ignores_surplus (orig noisy extra : string) :
  (String.length orig <= String.length noisy)%nat ->
  qber orig (noisy ++ extra) = qber orig noisy.
Proof.
  intros Hlen. unfold qber. rewrite mismatches_surplus by assumption. reflexivity.
Qed.

Lemma qber_ignores_surplus_witness :
  qber "0110" ("0100" ++ "1111") = qber "0110" "0100".
Proof. apply qber_ignores_surplus. cbn. lia. Defined.

(** X8: on a non-empty original key [qber] never raises and never returns a
    NaN or a negative number, whatever the second key; the count it divides
    is at most the length of the shorter key. *)
Theorem qber_is_nonnegative_number (orig noisy : string) :
  0 < len orig < 2 ^ 63 ->
  exists q,
    qber orig noisy = inr q /\
    is_nan q = false /\
    (0 <=? q)%float = true /\
    0 <= mismatches orig noisy
      <= Z.of_nat (Nat.min (String.length orig) (String.length noisy)).
Proof.
  intros Hlen. unfold qber, true_divide.
  destruct (Z.eqb_spec (len orig) 0) as [E|_]; [lia|].
  pose proof (mismatches_bounds orig noisy) as Hm.
  assert (Hsigned : sf_signed false
            (Prim2SF (float_of_int (mismatches orig noisy) / float_of_int (len orig)))).
  { replace false with (sign_of (mismatches orig noisy))
      by (unfold sign_of; apply Z.ltb_ge; lia).
    apply int_div_signed; [|assumption]. unfold len in *. lia. }
  eexists. split; [reflexivity|].
  split; [eapply sf_signed_number; exact Hsigned|].
  split; [apply zero_leb_signed; exact Hsigned | exact Hm].
Qed.

Lemma qber_is_nonnegative_number_witness :
  exists q,
    qber demo_key "0011" = inr q /\
    is_nan q = false /\
    (0 <=? q)%float = true /\
    0 <= mismatches demo_key "0011"
      <= Z.of_nat (Nat.min (String.length demo_key) (String.length "0011")).
Proof.
  apply qber_is_nonnegative_number. vm_compute. split; reflexivity.
Defined.

(** The quotient of a finite non-zero float by itself is 1. *)
Lemma SFdiv_self s m e :
  SF64div (S754_finite s m e) (S754_finite s m e) = Prim2SF 1.
Proof.
  unfold SF64div, SFdiv, SFdiv_core_binary. cbv zeta.
  replace (Zdigits2 (Zpos m) + e - (Zdigits2 (Zpos m) + e)) with 0 by lia.
  rewrite Z.sub_diag.
  change (Z.min (fexp prec emax 0) 0) with (-53).
  change (0 - -53) with 53.
  rewrite Z.shiftl_mul_pow2 by lia.
  destruct (Z.div_eucl (Zpos m * 2 ^ 53) (Zpos m)) as [q r] eqn:Ed.
  assert (Hq : q = 2 ^ 53).
  { transitivity (Zpos m * 2 ^ 53 / Zpos m); [unfold Z.div; rewrite Ed; reflexivity|].
    rewrite Z.mul_comm. apply Z.div_mul. lia. }
  assert (Hr : r = 0).
  { transitivity ((Zpos m * 2 ^ 53) mod Zpos m);
      [unfold Z.modulo; rewrite Ed; reflexivity|].
    rewrite Z.mul_comm. apply Z.mod_mul. lia. }
  subst q r. rewrite xorb_nilpotent.
  assert (Hloc : new_location (Zpos m) 0 = loc_Exact).
  { unfold new_location. destruct (Z.even (Zpos m)); reflexivity. }
  rewrite Hloc. vm_compute. reflexivity.
Qed.

Lemma int_div_self n :
  0 < n < 2 ^ 63 -> (float_of_int n / float_of_int n)%float = 1%float.
Proof.
  intros Hn. apply Prim2SF_inj. rewrite div_spec.
  pose proof (float_of_int_sf n ltac:(lia)) as Hf.
  destruct n as [|pn|pn]; try lia.
  destruct (Prim2SF (float_of_int (Zpos pn))) as [| | |s m e]; cbn in Hf;
    try contradiction.
  apply SFdiv_self.
Qed.

Lemma qber_differs (orig noisy : string) :
  0 < len orig < 2 ^ 63 ->
  pointwise differs orig noisy = true ->
  qber orig noisy = inr 1%float.
Proof.
  intros Hlen Hdiff. unfold qber, true_divide.
  destruct (Z.eqb_spec (len orig) 0) as [E|_]; [lia|].
  rewrite (pointwise_differs_mismatches _ _ Hdiff), int_div_self by assumption.
  reflexivity.
Qed.

Lemma qber_same (k : string) : 0 < len k < 2 ^ 63 -> qber k k = inr 0%float.
Proof.
  intros Hk. unfold qber, true_divide. rewrite mismatches_self.
  destruct (Z.eqb_spec (len k) 0) as [E|_]; [lia|].
  rewrite zero_div_int by assumption. reflexivity.
Qed.

(** X9: the error rate of two keys of one length that differ at every
    position is exactly 1.0. *)
Theorem qber_of_total_disagreement (orig noisy : string) :
  0 < len orig < 2 ^ 63 ->
  pointwise differs orig noisy = true ->
  qber orig noisy = inr 1%float.
Proof. exact (qber_differs orig noisy). Qed.

Lemma qber_of_total_disagreement_witness :
  qber "0110" "1001" = inr 1%float.
Proof.
  apply qber_of_total_disagreement; [vm_compute; split; reflexivity | reflexivity].
Defined.

(** * Grid points at the two extremes of the error rate *)

(** At an error rate of 0 or of 1 the entropy is 0 by the guard of
    [shannon_entropy], [np.log2] is not consulted, and the whole key is
    retained. *)
Lemma retained_bits_at_zero log2 :
  retained_bits (1 - shannon_entropy log2 0)%float = inr key_length.
Proof. reflexivity. Qed.

Lemma retained_bits_at_one log2 :
  retained_bits (1 - shannon_entropy log2 1)%float = inr key_length.
Proof. reflexivity. Qed.

Lemma pointwise_flipped_differs a : forall b,
  binary a = true -> pointwise flipped_if_binary a b = true ->
  pointwise differs a b = true.
Proof.
  induction a as [|c a IH]; intros [|d b]; cbn [binary pointwise];
    try discriminate; [reflexivity|].
  rewrite !andb_true_iff. intros [Hc Ha] [Hcd Hab]. split; [|auto].
  unfold flipped_if_binary in Hcd. rewrite Hc in Hcd. exact Hcd.
Qed.

Section GridPointExtremes.

Context {G : Type} `{RandomSource G}.
Variable log2 : float -> float.

Lemma quiet_model_draws model : quiet_model model -> ~ In model drawing_models.
Proof.
  intros [->|[->|[->|Hnot]]]; cbn [drawing_models In]; intros Hin.
  1-3: repeat destruct Hin as [Hin|Hin]; try discriminate Hin; exact Hin.
  apply Hnot. cbn [noise_models In].
  destruct Hin as [<-|[<-|[<-|[]]]]; tauto.
Qed.

Lemma corrupt_quiet model p i bit rnd g :
  quiet_model model ->
  fst (corrupt model p i bit rnd g) = String bit EmptyString.
Proof.
  intros [E|[E|[->|Hnot]]].
  - rewrite corrupt_pass_through by tauto. reflexivity.
  - rewrite corrupt_pass_through by tauto. reflexivity.
  - rewrite corrupt_photon_number_splitting. reflexivity.
  - rewrite corrupt_pass_through by tauto. reflexivity.
Qed.

(** A quiet model hands the key back after one uniform draw per symbol. *)
Lemma apply_noise_quiet key p model g :
  quiet_model model ->
  apply_noise key p model g = (key, after_draws (String.length key) g).
Proof.
  intros Hq. unfold apply_noise.
  rewrite (surjective_pairing (apply_noise_loop model p 0 key EmptyString g)).
  f_equal.
  - apply (apply_noise_loop_identity (fun _ => True)); [auto|].
    intros. apply corrupt_quiet. assumption.
  - apply apply_noise_loop_draws. apply quiet_model_draws. assumption.
Qed.

Lemma grid_point_quiet original_key model p g :
  quiet_model model -> 0 < len original_key < 2 ^ 63 ->
  grid_point log2 original_key model p g
  = inr (key_length, after_draws (String.length original_key) g).
Proof.
  intros Hq Hlen. unfold grid_point, bind, draw, lift.
  rewrite apply_noise_quiet by assumption.
  rewrite qber_same by assumption.
  rewrite retained_bits_at_zero. reflexivity.
Qed.

(** X10: under Phase Flip, Phase Damping, Photon Number Splitting or an
    unrecognized name, a grid point on a non-empty key retains the whole
    key, [key_length] bits, at every probability and whatever [np.log2]
    returns; it leaves the generator one uniform draw per symbol further. *)
Theorem quiet_grid_point_retains_all (original_key model : string) (p : float)
    (g : G) :
  quiet_model model -> 0 < len original_key < 2 ^ 63 ->
  grid_point log2 original_key model p g
  = inr (key_length, after_draws (String.length original_key) g).
Proof. exact (grid_point_quiet original_key model p g). Qed.

Lemma corrupt_bit_flip_fires p i bit rnd g :
  (rnd <? p)%float = true ->
  exists d, fst (corrupt "Bit Flip" p i bit rnd g) = String d EmptyString /\
            flipped_if_binary bit d = true.
Proof.
  intros Hfire. unfold corrupt, flipped_if_binary, binary_symbol, differs.
  decide_model. rewrite Hfire.
  destruct (Ascii.eqb_spec bit "0") as [->|H0];
    [|destruct (Ascii.eqb_spec bit "1") as [->|H1]];
    cbn [andb fst]; eexists; (split; [reflexivity|]); reflexivity.
Qed.

(** X11: when every uniform draw is below the probability, Bit Flip turns a
    non-empty key of '0's and '1's into its complement; the error rate is
    then 1, the entropy 0 by the guard, and the grid point retains the whole
    key, as it does for a key that came through untouched. *)
Theorem fully_flipped_key_is_retained (original_key : string) (p : float) (g : G) :
  (forall g', (fst (rand g') <? p)%float = true) ->
  binary original_key = true ->
  0 < len original_key < 2 ^ 63 ->
  pointwise differs original_key (fst (apply_noise original_key p "Bit Flip" g))
  = true /\
  grid_point log2 original_key "Bit Flip" p g
  = inr (key_length, after_draws (String.length original_key) g).
Proof.
  intros Hdraws Hbin Hlen.
  destruct (apply_noise_loop_pointwise (fun rnd => (rnd <? p)%float = true)
              flipped_if_binary "Bit Flip" p Hdraws
              (fun i bit rnd g0 => corrupt_bit_flip_fires p i bit rnd g0)
              original_key 0%nat EmptyString g) as (out & E & Hp).
  cbn [append] in E. fold (apply_noise original_key p "Bit Flip" g) in E.
  apply pointwise_flipped_differs in Hp; [|assumption].
  rewrite E. split; [exact Hp|].
  unfold grid_point, bind, draw, lift.
  rewrite (surjective_pairing (apply_noise original_key p "Bit Flip" g)), E.
  rewrite qber_differs by assumption.
  rewrite retained_bits_at_one. unfold apply_noise.
  rewrite apply_noise_loop_draws; [reflexivity|].
  cbn [drawing_models In]. intros Hin.
  repeat destruct Hin as [Hin|Hin]; try discriminate Hin; exact Hin.
Qed.

End GridPointExtremes.

Lemma quiet_grid_point_retains_all_witness :
  grid_point approx_log2 demo_key "Phase Flip" 0.3 7
  = inr (key_length, after_draws (String.length demo_key) 7).
Proof.
  apply quiet_grid_point_retains_all.
  - left. reflexivity.
  - vm_compute. split; reflexivity.
Defined.

Lemma fully_flipped_key_is_retained_witness :
  pointwise differs demo_key
    (fst (@apply_noise unit (fixed_source 0.25 true) demo_key 0.5 "Bit Flip" tt))
  = true /\
  @grid_point unit (fixed_source 0.25 true) approx_log2 demo_key "Bit Flip" 0.5 tt
  = inr (key_length,
         @after_draws unit (fixed_source 0.25 true) (String.length demo_key) tt).
Proof.
  apply (@fully_flipped_key_is_retained unit (fixed_source 0.25 true)).
  - intros []. reflexivity.
  - reflexivity.
  - vm_compute. split; reflexivity.
Defined.

(** * Further properties of the sweep *)

Lemma fold_min_spec (col : list Z) : forall x0,
  (fold_left Z.min col x0 <= x0 /\
   Forall (fun x => fold_left Z.min col x0 <= x) col) /\
  In (fold_left Z.min col x0) (x0 :: col).
Proof.
  induction col as [|x col IH]; intros x0; cbn [fold_left].
  - split; [split; [lia | constructor] | left; reflexivity].
  - destruct (IH (Z.min x0 x)) as [[Hle Hall] Hin]. split; [split|].
    + lia.
    + constructor; [lia | exact Hall].
    + destruct Hin as [E|Hin]; [|right; right; exact Hin].
      rewrite <- E. destruct (Z.min_spec x0 x) as [[_ ->]|[_ ->]];
        [left | right; left]; reflexivity.
Qed.

Lemma fold_max_spec (col : list Z) : forall x0,
  (x0 <= fold_left Z.max col x0 /\
   Forall (fun x => x <= fold_left Z.max col x0) col) /\
  In (fold_left Z.max col x0) (x0 :: col).
Proof.
  induction col as [|x col IH]; intros x0; cbn [fold_left].
  - split; [split; [lia | constructor] | left; reflexivity].
  - destruct (IH (Z.max x0 x)) as [[Hle Hall] Hin]. split; [split|].
    + lia.
    + constructor; [lia | exact Hall].
    + destruct Hin as [E|Hin]; [|right; right; exact Hin].
      rewrite <- E. destruct (Z.max_spec x0 x) as [[_ ->]|[_ ->]];
        [right; left | left]; reflexivity.
Qed.

(** Entry [j] of a reduction along axis 0 is the reduction of column [j]. *)
Lemma reduce_axis0_nth f rows out j v :
  reduce_axis0 f rows = inr out ->
  nth_error out j = Some v ->
  exists x0 rest,
    column rows j = x0 :: rest /\ v = fold_left f rest x0 /\
    (j < List.length (hd [] rows))%nat.
Proof.
  destruct rows as [|row0 rows]; [discriminate|].
  cbn [reduce_axis0 columns hd]. intros [= <-].
  rewrite !nth_error_map, nth_error_seq.
  destruct (Nat.ltb_spec j (List.length row0)) as [Hj|Hj]; [|discriminate].
  cbn [option_map Nat.add]. intros [= <-].
  cbn [column map hd tl]. eauto.
Qed.

Lemma reduce_axis0_length f rows out :
  reduce_axis0 f rows = inr out ->
  List.length out = List.length (hd [] rows).
Proof.
  destruct rows as [|row0 rows]; [discriminate|].
  cbn [reduce_axis0 columns hd]. intros [= <-].
  rewrite !length_map, length_seq. reflexivity.
Qed.

Lemma dict_set_keys_in (d : dict) (k : string) (v : float) (m : string) :
  In m (map fst (dict_set d k v)) <-> m = k \/ In m (map fst d).
Proof.
  induction d as [|[k' v'] d IH]; cbn [dict_set map fst In].
  - intuition congruence.
  - destruct (String.eqb_spec k' k) as [->|Hne]; cbn [map fst In].
    + intuition congruence.
    + rewrite IH. intuition congruence.
Qed.

Lemma dict_set_keys_nodup (d : dict) (k : string) (v : float) :
  NoDup (map fst d) -> NoDup (map fst (dict_set d k v)).
Proof.
  induction d as [|[k' v'] d IH]; cbn [dict_set map fst]; intros Hnd.
  - constructor; [intros [] | constructor].
  - inversion Hnd as [|? ? Hnotin Hnd']; subst.
    destruct (String.eqb_spec k' k) as [->|Hne]; cbn [map fst].
    + constructor; assumption.
    + constructor; [|auto]. rewrite dict_set_keys_in. intuition congruence.
Qed.

Lemma py_index_nth (l : list string) : NoDup l ->
  forall i x, nth_error l i = Some x -> py_index l x = inr i.
Proof.
  induction 1 as [|y l Hnotin Hnd IH]; intros [|i] x; cbn [nth_error py_index];
    try discriminate.
  - intros [= ->]. rewrite String.eqb_refl. reflexivity.
  - intros Hx. destruct (String.eqb_spec y x) as [->|_].
    + exfalso. apply Hnotin. eapply nth_error_In. exact Hx.
    + rewrite (IH i x Hx). reflexivity.
Qed.

Lemma in_combine_nth {A B} (l1 : list A) : forall (l2 : list B) a b,
  In (a, b) (combine l1 l2) ->
  exists i, nth_error l1 i = Some a /\ nth_error l2 i = Some b.
Proof.
  induction l1 as [|x l1 IH]; intros [|y l2] a b; cbn [combine In]; try tauto.
  intros [[= -> ->]|Hin].
  - exists 0%nat. auto.
  - destruct (IH l2 a b Hin) as (i & H1 & H2). exists (S i). auto.
Qed.

Section SweepMore.

Context {G : Type} `{RandomSource G}.
Variable log2 : float -> float.

Lemma grid_point_values original_key model p g ada g' :
  grid_point log2 original_key model p g = inr (ada, g') ->
  In ada [256; 307; 384; 512].
Proof.
  unfold grid_point, bind, draw, lift.
  destruct (apply_noise original_key p model g) as [nk g1].
  destruct (qber original_key nk) as [e|q]; [discriminate|].
  set (ent := (1 - shannon_entropy log2 q)%float).
  destruct (retained_bits_cases ent) as [E|[E|[E|E]]]; rewrite E;
    intros [= <- _]; cbn [In]; tauto.
Qed.

Lemma curve_loop_values original_key model : forall noise_range adaps g out g',
  curve_loop log2 original_key model noise_range adaps g = inr (out, g') ->
  Forall (fun ada => In ada [256; 307; 384; 512]) adaps ->
  Forall (fun ada => In ada [256; 307; 384; 512]) out.
Proof.
  intros noise_range.
  induction noise_range as [|p rest IH]; intros adaps g out g'; cbn [curve_loop].
  - unfold ret. intros [= <- _]. auto.
  - unfold bind at 1.
    destruct (grid_point log2 original_key model p g) as [e|[ada g1]] eqn:Hp;
      [discriminate|].
    intros Hrest Hall. eapply IH; [exact Hrest|].
    apply Forall_app. split; [assumption|]. constructor; [|constructor].
    eapply grid_point_values. exact Hp.
Qed.

Lemma models_loop_values original_key noise_range :
  forall models matrix gains g matrix' gains' g',
    models_loop log2 original_key noise_range models matrix gains g
    = inr ((matrix', gains'), g') ->
    Forall (Forall (fun ada => In ada [256; 307; 384; 512])) matrix ->
    Forall (Forall (fun ada => In ada [256; 307; 384; 512])) matrix'.
Proof.
  induction models as [|model rest IH]; intros matrix gains g matrix' gains' g';
    cbn [models_loop].
  - unfold ret. intros [= <- _ _]. auto.
  - unfold bind at 1.
    destruct (curve_loop log2 original_key model noise_range [] g)
      as [e|[adaps g1]] eqn:Hc; [discriminate|].
    intros Hrest Hall. eapply IH; [exact Hrest|].
    apply Forall_app. split; [assumption|]. constructor; [|constructor].
    eapply curve_loop_values; [exact Hc | constructor].
Qed.

Lemma models_loop_keys original_key noise_range :
  forall models matrix gains g matrix' gains' g',
    models_loop log2 original_key noise_range models matrix gains g
    = inr ((matrix', gains'), g') ->
    NoDup (map fst gains) ->
    NoDup (map fst gains') /\
    (forall m, In m (map fst gains') <-> In m (map fst gains) \/ In m models).
Proof.
  induction models as [|model rest IH]; intros matrix gains g matrix' gains' g';
    cbn [models_loop].
  - unfold ret. intros [= _ <- _] Hnd. split; [assumption|].
    intros m. cbn [In]. tauto.
  - unfold bind at 1.
    destruct (curve_loop log2 original_key model noise_range [] g)
      as [e|[adaps g1]]; [discriminate|].
    intros Hrest Hnd. apply IH in Hrest; [|apply dict_set_keys_nodup; assumption].
    destruct Hrest as [Hnd' Hkeys]. split; [assumption|].
    intros m. rewrite Hkeys, dict_set_keys_in. cbn [In]. intuition congruence.
Qed.

(** What a completed sweep computed along axis 0. *)
Lemma unified_comparison_reductions models noise_range original_key g st g' :
  unified_comparison log2 models noise_range original_key g = inr (st, g') ->
  reduce_axis0 Z.min (adaptive_matrix st) = inr (min_adaptive st) /\
  reduce_axis0 Z.max (adaptive_matrix st) = inr (max_adaptive st) /\
  mean_adaptive st = map mean (columns (adaptive_matrix st)).
Proof.
  unfold unified_comparison, bind, lift, ret.
  destruct (models_loop log2 original_key noise_range models [] [] g)
    as [e|[[matrix gains] g1]]; [discriminate|]. cbn [fst snd].
  destruct (reduce_axis0 Z.min matrix) as [e|mins] eqn:Hmins; [discriminate|].
  destruct (reduce_axis0 Z.max matrix) as [e|maxs] eqn:Hmaxs; [discriminate|].
  destruct (py_max gains) as [e|best]; [discriminate|].
  destruct (py_min gains) as [e|worst]; [discriminate|].
  intros [= <- <-]. cbn [adaptive_matrix min_adaptive max_adaptive mean_adaptive].
  auto.
Qed.

Lemma empty_key_raises models noise_range g :
  models <> [] -> noise_range <> [] ->
  unified_comparison log2 models noise_range EmptyString g
  = inl ZeroDivisionError.
Proof.
  destruct models as [|model rest]; [congruence|].
  destruct noise_range as [|p ps]; [congruence|]. reflexivity.
Qed.

End SweepMore.

Section SweepExtras.

Context {G : Type} `{RandomSource G}.
Variable log2 : float -> float.

(** The rows of a completed sweep, with what is known of each. *)
Lemma completed_rows models noise_range original_key g st g' :
  unified_comparison log2 models noise_range original_key g = inr (st, g') ->
  adaptive_matrix st <> [] /\
  Forall (curve_ok noise_range) (adaptive_matrix st) /\
  Forall (Forall (fun ada => In ada [256; 307; 384; 512])) (adaptive_matrix st) /\
  List.length (hd [] (adaptive_matrix st)) = List.length noise_range.
Proof.
  intros Hrun.
  pose proof (unified_comparison_reductions _ _ _ _ _ _ _ Hrun) as (Hmin & _).
  apply unified_comparison_completed in Hrun.
  destruct Hrun as (best & worst & Hloop & _).
  pose proof (models_loop_values _ _ _ _ _ _ _ _ _ _ Hloop (Forall_nil _)) as Hvals.
  apply models_loop_appends in Hloop.
  destruct Hloop as (rows & Hrows & _ & Hok & _).
  cbn [app] in Hrows. rewrite Hrows in *.
  destruct rows as [|row0 rows]; [discriminate|].
  split; [discriminate|]. split; [assumption|]. split; [assumption|].
  inversion Hok as [|? ? [Hl _] _]; subst. exact Hl.
Qed.

Lemma column_member rows adaps j ada :
  In adaps rows -> nth_error adaps j = Some ada -> In ada (column rows j).
Proof.
  intros Hin Hj. unfold column. apply in_map_iff. exists adaps.
  split; [|assumption]. apply nth_error_nth. assumption.
Qed.

Lemma column_entry noise_range rows j x :
  Forall (curve_ok noise_range) rows -> (j < List.length noise_range)%nat ->
  In x (column rows j) ->
  exists adaps, In adaps rows /\ nth_error adaps j = Some x.
Proof.
  intros Hok Hj Hin. unfold column in Hin. apply in_map_iff in Hin.
  destruct Hin as (adaps & <- & Hrow). exists adaps. split; [assumption|].
  rewrite Forall_forall in Hok. destruct (Hok adaps Hrow) as [Hl _].
  apply nth_error_nth'. lia.
Qed.

(** X12: every retained-bit count a completed sweep records, and every
    entry of its minimum and maximum curves, is one of 256, 307, 384 and
    512: never more than [key_length], never below half of it. *)
Theorem retained_counts_take_four_values (models : list string)
    (noise_range : list float) (original_key : string) (g g' : G)
    (st : summary) :
  unified_comparison log2 models noise_range original_key g = inr (st, g') ->
  Forall (Forall (fun ada => In ada [256; 307; 384; 512])) (adaptive_matrix st) /\
  Forall (fun ada => In ada [256; 307; 384; 512]) (min_adaptive st) /\
  Forall (fun ada => In ada [256; 307; 384; 512]) (max_adaptive st).
Proof.
  intros Hrun.
  pose proof (completed_rows _ _ _ _ _ _ Hrun) as (_ & Hok & Hvals & Hlen).
  pose proof (unified_comparison_reductions _ _ _ _ _ _ _ Hrun) as (Hmin & Hmax & _).
  assert (Hentry : forall j x, (j < List.length noise_range)%nat ->
            In x (column (adaptive_matrix st) j) -> In x [256; 307; 384; 512]).
  { intros j x Hj Hin.
    destruct (column_entry _ _ _ _ Hok Hj Hin) as (adaps & Hrow & Hx).
    rewrite Forall_forall in Hvals. specialize (Hvals adaps Hrow).
    rewrite Forall_forall in Hvals. apply Hvals. eapply nth_error_In. exact Hx. }
  split; [assumption|]. split; apply Forall_forall; intros v Hv;
    apply In_nth_error in Hv; destruct Hv as (j & Hj).
  - destruct (reduce_axis0_nth _ _ _ _ _ Hmin Hj) as (x0 & rest & Hcol & -> & Hlt).
    apply (Hentry j); [lia|]. rewrite Hcol. apply fold_min_spec.
  - destruct (reduce_axis0_nth _ _ _ _ _ Hmax Hj) as (x0 & rest & Hcol & -> & Hlt).
    apply (Hentry j); [lia|]. rewrite Hcol. apply fold_max_spec.
Qed.

(** X13: the minimum and maximum curves of a completed sweep have one entry
    per grid point; at each grid point they bracket the count of every
    model, and each is the count of some model there. *)
Theorem envelope_brackets_every_curve (models : list string)
    (noise_range : list float) (original_key : string) (g g' : G)
    (st : summary) :
  unified_comparison log2 models noise_range original_key g = inr (st, g') ->
  List.length (min_adaptive st) = List.length noise_range /\
  List.length (max_adaptive st) = List.length noise_range /\
  (forall adaps j lo hi ada,
      In adaps (adaptive_matrix st) ->
      nth_error (min_adaptive st) j = Some lo ->
      nth_error (max_adaptive st) j = Some hi ->
      nth_error adaps j = Some ada ->
      lo <= ada <= hi) /\
  (forall j lo, nth_error (min_adaptive st) j = Some lo ->
      exists adaps, In adaps (adaptive_matrix st) /\ nth_error adaps j = Some lo) /\
  (forall j hi, nth_error (max_adaptive st) j = Some hi ->
      exists adaps, In adaps (adaptive_matrix st) /\ nth_error adaps j = Some hi).
Proof.
  intros Hrun.
  pose proof (completed_rows _ _ _ _ _ _ Hrun) as (_ & Hok & _ & Hlen).
  pose proof (unified_comparison_reductions _ _ _ _ _ _ _ Hrun) as (Hmin & Hmax & _).
  split; [rewrite (reduce_axis0_length _ _ _ Hmin); exact Hlen|].
  split; [rewrite (reduce_axis0_length _ _ _ Hmax); exact Hlen|].
  split; [|split].
  - intros adaps j lo hi ada Hrow Hlo Hhi Hada.
    pose proof (column_member _ _ _ _ Hrow Hada) as Hin.
    destruct (reduce_axis0_nth _ _ _ _ _ Hmin Hlo) as (x0 & rest & Hcol & -> & _).
    destruct (reduce_axis0_nth _ _ _ _ _ Hmax Hhi) as (y0 & rest' & Hcol' & -> & _).
    rewrite Hcol in Hcol'. injection Hcol' as <- <-. rewrite Hcol in Hin.
    destruct (fold_min_spec rest x0) as [[Hm0 Hmall] _].
    destruct (fold_max_spec rest x0) as [[HM0 HMall] _].
    rewrite Forall_forall in Hmall, HMall.
    destruct Hin as [<-|Hin]; [lia|]. split; [apply Hmall | apply HMall]; assumption.
  - intros j lo Hlo.
    destruct (reduce_axis0_nth _ _ _ _ _ Hmin Hlo) as (x0 & rest & Hcol & -> & Hlt).
    apply (column_entry noise_range); [assumption | lia|].
    rewrite Hcol. apply fold_min_spec.
  - intros j hi Hhi.
    destruct (reduce_axis0_nth _ _ _ _ _ Hmax Hhi) as (x0 & rest & Hcol & -> & Hlt).
    apply (column_entry noise_range); [assumption | lia|].
    rewrite Hcol. apply fold_max_spec.
Qed.

(** X14: [model_gains] holds each model name of the list once, and nothing
    else, also when the list repeats a name (the later curve then replaces
    the gain of the earlier one). *)
Theorem model_gains_keys (models : list string) (noise_range : list float)
    (original_key : string) (g g' : G) (st : summary) :
  unified_comparison log2 models noise_range original_key g = inr (st, g') ->
  NoDup (map fst (model_gains st)) /\
  (forall model, In model (map fst (model_gains st)) <-> In model models).
Proof.
  intros Hrun. apply unified_comparison_completed in Hrun.
  destruct Hrun as (best & worst & Hloop & _).
  apply models_loop_keys in Hloop; [|constructor].
  destruct Hloop as [Hnd Hkeys]. split; [assumption|].
  intros model. rewrite Hkeys. cbn [map In]. tauto.
Qed.

(** X15: with at least one model and one grid point the sweep fails only on
    an empty key, with the [ZeroDivisionError] of [qber]; on every other
    key it runs to its end. *)
Theorem sweep_fails_only_on_empty_key (models : list string)
    (noise_range : list float) (g : G) :
  models <> [] -> noise_range <> [] ->
  unified_comparison log2 models noise_range EmptyString g
  = inl ZeroDivisionError /\
  (forall original_key, original_key <> EmptyString ->
     exists st g',
       unified_comparison log2 models noise_range original_key g = inr (st, g')).
Proof.
  intros Hmodels Hgrid. split; [apply empty_key_raises; assumption|].
  intros original_key Hkey. apply unified_comparison_completes; assumption.
Qed.

(** X16: after a sweep over distinct models, [models.index(best_model)] and
    [models.index(worst_model)] do not raise, and the rows of
    [adaptive_matrix] they select are the curves whose gains are
    [best_gain] and [worst_gain]. *)
Theorem highlighted_rows_are_best_and_worst (models : list string)
    (noise_range : list float) (original_key : string) (g g' : G)
    (st : summary) :
  NoDup models ->
  unified_comparison log2 models noise_range original_key g = inr (st, g') ->
  (exists idx_best adaps,
      py_index models (best_model st) = inr idx_best /\
      row_at (adaptive_matrix st) idx_best = Some adaps /\
      best_gain st = gain_over_static adaps) /\
  (exists idx_worst adaps,
      py_index models (worst_model st) = inr idx_worst /\
      row_at (adaptive_matrix st) idx_worst = Some adaps /\
      worst_gain st = gain_over_static adaps).
Proof.
  intros Hnd Hrun. apply unified_comparison_completed in Hrun.
  destruct Hrun as ([bm bg] & [wm wg] & Hloop & Hmax & Hmin & -> & -> & -> & ->).
  cbn [fst snd].
  apply models_loop_appends in Hloop.
  destruct Hloop as (rows & Hrows & _ & _ & _ & _ & Hfresh).
  cbn [app] in Hrows. rewrite Hrows.
  specialize (Hfresh Hnd (fun m _ Hin => Hin)). cbn [app] in Hfresh.
  apply select_member in Hmax, Hmin. rewrite Hfresh in Hmax, Hmin.
  apply in_combine_nth in Hmax, Hmin.
  destruct Hmax as (ib & Hbm & Hbg). destruct Hmin as (iw & Hwm & Hwg).
  rewrite nth_error_map in Hbg, Hwg. unfold row_at.
  destruct (nth_error rows ib) as [rb|] eqn:Erb; [|discriminate].
  destruct (nth_error rows iw) as [rw|] eqn:Erw; [|discriminate].
  cbn [option_map] in Hbg, Hwg. injection Hbg as <-. injection Hwg as <-.
  split.
  - exists ib, rb. rewrite (py_index_nth models Hnd ib bm Hbm). auto.
  - exists iw, rw. rewrite (py_index_nth models Hnd iw wm Hwm). auto.
Qed.

End SweepExtras.

(** * The figure and the summary *)

Lemma py_index_in (l : list string) (x : string) :
  In x l -> exists i, py_index l x = inr i /\ (i < List.length l)%nat.
Proof.
  induction l as [|y l IH]; cbn [In py_index List.length]; [contradiction|].
  intros Hin. destruct (String.eqb_spec y x) as [_|Hne].
  - exists 0%nat. split; [reflexivity | lia].
  - destruct Hin as [E|Hin]; [contradiction|].
    destruct (IH Hin) as (i & -> & Hi). exists (S i). split; [reflexivity | lia].
Qed.

Lemma py_getitem_in_range {A : Type} (a : list A) (i : nat) :
  (i < List.length a)%nat ->
  exists x, py_getitem a i = inr x /\ In x a.
Proof.
  intros Hi. unfold py_getitem.
  destruct (nth_error a i) as [x|] eqn:E.
  - exists x. split; [reflexivity|]. eapply nth_error_In. exact E.
  - apply nth_error_None in E. lia.
Qed.

Lemma py_last_nonempty {A : Type} (a : list A) :
  a <> [] -> exists x, py_last a = inr x.
Proof.
  intros Hne. unfold py_last. destruct (rev a) as [|x r] eqn:E.
  - exfalso. apply Hne. apply (f_equal (@rev A)) in E.
    rewrite rev_involutive in E. exact E.
  - exists x. reflexivity.
Qed.

Section PresentationFacts.

Context {G : Type} `{RandomSource G}.
Variable log2 : float -> float.
Variable np_mean : list float -> float.

(** After a completed sweep the two [index] calls of lines 114 and 115 find
    their model, and lines 116 and 118 find its row, one count per grid
    point. *)
Lemma highlighted_rows_found models noise_range original_key g st g' :
  unified_comparison log2 models noise_range original_key g = inr (st, g') ->
  exists idx_best idx_worst row_best row_worst,
    py_index models (best_model st) = inr idx_best /\
    py_index models (worst_model st) = inr idx_worst /\
    py_getitem (adaptive_matrix st) idx_best = inr row_best /\
    py_getitem (adaptive_matrix st) idx_worst = inr row_worst /\
    List.length row_best = List.length noise_range /\
    List.length row_worst = List.length noise_range.
Proof.
  intros Hrun. apply unified_comparison_completed in Hrun.
  destruct Hrun as (best & worst & Hloop & Hmax & Hmin & -> & _ & -> & _).
  pose proof (models_loop_keys log2 _ _ _ _ _ _ _ _ _ Hloop (NoDup_nil _))
    as [_ Hkeys].
  apply models_loop_appends in Hloop.
  destruct Hloop as (rows & Hrows & Hcount & Hok & _).
  cbn [app] in Hrows. rewrite Hrows.
  apply select_member in Hmax, Hmin.
  assert (Hb : In (fst best) models).
  { destruct (Hkeys (fst best)) as [[[]|Hin] _]; [|exact Hin].
    apply in_map. exact Hmax. }
  assert (Hw : In (fst worst) models).
  { destruct (Hkeys (fst worst)) as [[[]|Hin] _]; [|exact Hin].
    apply in_map. exact Hmin. }
  destruct (py_index_in _ _ Hb) as (ib & Eb & Hib).
  destruct (py_index_in _ _ Hw) as (iw & Ew & Hiw).
  rewrite <- Hcount in Hib, Hiw.
  destruct (py_getitem_in_range rows ib Hib) as (rb & Erb & Hrb).
  destruct (py_getitem_in_range rows iw Hiw) as (rw & Erw & Hrw).
  rewrite Forall_forall in Hok.
  exists ib, iw, rb, rw.
  repeat (split; [assumption|]).
  split; [apply (Hok rb Hrb) | apply (Hok rw Hrw)].
Qed.

(** Over a non-empty grid the figure and the summary follow every completed
    sweep: nothing in lines 101 to 153 raises. *)
Lemma unified_comparison_shown_completes models noise_range original_key g st g' :
  noise_range <> [] ->
  unified_comparison log2 models noise_range original_key g = inr (st, g') ->
  exists shown,
    unified_comparison_shown log2 np_mean models noise_range original_key g
    = inr (shown, g') /\
    statistics shown = st.
Proof.
  intros Hne Hrun.
  destruct (highlighted_rows_found _ _ _ _ _ _ Hrun)
    as (ib & iw & rb & rw & Eb & Ew & Erb & Erw & Hlb & Hlw).
  destruct (py_last_nonempty noise_range Hne) as (p & Ep).
  destruct (py_last_nonempty rb (nonempty_of_length _ _ Hlb Hne)) as (ab & Eab).
  destruct (py_last_nonempty rw (nonempty_of_length _ _ Hlw Hne)) as (aw & Eaw).
  assert (Hmeans : mean_adaptive st <> []).
  { pose proof (unified_comparison_reductions log2 _ _ _ _ _ _ Hrun) as (_ & _ & E).
    pose proof (completed_rows log2 _ _ _ _ _ _ Hrun) as (Hrows & _ & _ & Hl).
    rewrite E. destruct (adaptive_matrix st) as [|row rows]; [congruence|].
    cbn [hd] in Hl. cbn [columns].
    apply (nonempty_of_length _ noise_range); [|exact Hne].
    rewrite !length_map, length_seq. exact Hl. }
  destruct (py_last_nonempty _ Hmeans) as (ml & Eml).
  eexists. split.
  - unfold unified_comparison_shown, bind at 1. rewrite Hrun.
    unfold bind, lift, ret. rewrite Eb, Ew, Erb, Erw, Ep, Eab, Eaw, Eml.
    reflexivity.
  - reflexivity.
Qed.


End PresentationFacts.

(** * The sweep of the script *)

Lemma noise_range_has_twelve : List.length noise_range = 12%nat.
Proof. vm_compute. reflexivity. Qed.

(** The mean of twelve differences between 0 and 256 reaches 256 only when
    it is 256: checked on each of the 3073 possible sums. *)
Lemma gain_of_twelve_cap (S : Z) :
  0 <= S <= 3072 ->
  (256 <=? float_of_int S / float_of_int 12)%float = true ->
  (float_of_int S / float_of_int 12)%float = 256%float.
Proof.
  intros HS Hle.
  assert (Hall : forallb
            (fun n => implb (256 <=? float_of_int (Z.of_nat n) / float_of_int 12)%float
                            (PrimFloat.Leibniz.eqb
                               (float_of_int (Z.of_nat n) / float_of_int 12) 256))
            (seq 0 3073) = true) by (vm_compute; reflexivity).
  rewrite forallb_forall in Hall.
  specialize (Hall (Z.to_nat S) ltac:(apply in_seq; lia)).
  rewrite Z2Nat.id in Hall by lia. rewrite Hle in Hall. cbn [implb] in Hall.
  apply FloatAxioms.Leibniz.eqb_spec. exact Hall.
Qed.

Lemma gain_over_static_of_curve (adaps : list Z) :
  curve_ok noise_range adaps ->
  exists S, 0 <= S <= 3072 /\
            gain_over_static adaps = (float_of_int S / float_of_int 12)%float.
Proof.
  intros [Hl Hr]. rewrite noise_range_has_twelve in Hl.
  unfold gain_over_static, mean. rewrite length_map, Hl.
  assert (Hdiff : Forall (fun x => 0 <= x <= 256)
                         (map (fun ada => ada - static_baseline) adaps)).
  { apply Forall_map. eapply Forall_impl; [|exact Hr]. cbn beta.
    unfold static_baseline, key_length. intros a Ha.
    change (512 / 2) with 256 in *. lia. }
  apply total_bounds in Hdiff. rewrite length_map, Hl in Hdiff.
  eexists. split; [|reflexivity]. lia.
Qed.

Section ScriptSweep.

Context {G : Type} `{RandomSource G}.
Variable log2 : float -> float.

Lemma curve_loop_quiet original_key model :
  quiet_model model -> 0 < len original_key < 2 ^ 63 ->
  forall noise_range adaps g out g',
    curve_loop log2 original_key model noise_range adaps g = inr (out, g') ->
    out = (adaps ++ repeat key_length (List.length noise_range))%list.
Proof.
  intros Hq Hlen noise_range.
  induction noise_range as [|p rest IH]; intros adaps g out g'; cbn [curve_loop].
  - unfold ret. intros [= <- _]. cbn [List.length repeat]. rewrite app_nil_r.
    reflexivity.
  - unfold bind at 1. rewrite (grid_point_quiet log2) by assumption.
    intros Hrest. apply IH in Hrest. rewrite Hrest, <- app_assoc. reflexivity.
Qed.

(** Each row of the matrix is the curve its model produced. *)
Lemma models_loop_rows original_key noise_range :
  forall models matrix gains g matrix' gains' g',
    models_loop log2 original_key noise_range models matrix gains g
    = inr ((matrix', gains'), g') ->
    exists rows,
      matrix' = (matrix ++ rows)%list /\
      Forall2 (fun model adaps =>
                 exists g0 g1,
                   curve_loop log2 original_key model noise_range [] g0
                   = inr (adaps, g1)) models rows.
Proof.
  induction models as [|model rest IH]; intros matrix gains g matrix' gains' g';
    cbn [models_loop].
  - unfold ret. intros [= <- _ _]. exists []. rewrite app_nil_r.
    split; [reflexivity | constructor].
  - unfold bind at 1.
    destruct (curve_loop log2 original_key model noise_range [] g)
      as [e|[adaps g1]] eqn:Hc; [discriminate|].
    intros Hrest. apply IH in Hrest. destruct Hrest as (rows & -> & Hrows).
    exists (adaps :: rows). rewrite <- app_assoc. split; [reflexivity|].
    constructor; [eauto | assumption].
Qed.

(** What the script's sweep always contains: the Phase Flip row, second in
    the matrix, is flat at [key_length], and its gain is 256. *)
Lemma script_sweep_shape original_key g st g' :
  len original_key < 2 ^ 63 ->
  unified_comparison log2 noise_models noise_range original_key g = inr (st, g') ->
  exists row0 rows gain0 gains,
    adaptive_matrix st = row0 :: repeat key_length 12 :: rows /\
    model_gains st = ("Bit Flip", gain0) :: ("Phase Flip", 256%float) :: gains.
Proof.
  intros Hlen Hrun.
  assert (Hkey : 0 < len original_key).
  { destruct original_key as [|c k]; [|unfold len; cbn [String.length]; lia].
    rewrite empty_key_raises in Hrun; [discriminate | discriminate |].
    apply noise_range_nonempty. }
  apply unified_comparison_completed in Hrun.
  destruct Hrun as (best & worst & Hloop & _).
  pose proof (models_loop_rows _ _ _ _ _ _ _ _ _ Hloop) as (rows & Hrows & Hcurves).
  apply models_loop_appends in Hloop.
  destruct Hloop as (rows' & Hrows' & _ & _ & _ & _ & Hfresh).
  cbn [app] in Hrows, Hrows'.
  assert (Erows : rows' = rows) by congruence.
  specialize (Hfresh NoDup_noise_models (fun m _ Hin => Hin)).
  cbn [app] in Hfresh. rewrite Erows in Hfresh.
  rewrite Hrows, Hfresh. clear - Hcurves Hlen Hkey.
  unfold noise_models in *.
  inversion Hcurves as [|m0 row0 ms rs _ Hrest]; subst.
  inversion Hrest as [|m1 row1 ms' rs' (g0 & g1 & Hquiet) _]; subst.
  apply curve_loop_quiet in Hquiet; [|left; reflexivity | lia].
  cbn [app] in Hquiet. rewrite noise_range_has_twelve in Hquiet. subst row1.
  cbn [map combine].
  exists row0, rs'. eexists. eexists. split; reflexivity.
Qed.

(** X17: whatever the key, the generator and [np.log2], the script's sweep
    reports a best gain of exactly 256 bits, and its best model is Bit Flip
    or Phase Flip: Phase Flip never changes the key, so its curve stays at
    [key_length], no mean over the grid exceeds 256, and only the model
    listed before it can tie. *)
Theorem script_best_gain_is_256 (original_key : string) (g g' : G) (st : summary) :
  len original_key < 2 ^ 63 ->
  unified_comparison_all_models log2 original_key g = inr (st, g') ->
  best_gain st = 256%float /\
  (best_model st = "Bit Flip" \/ best_model st = "Phase Flip").
Proof.
  unfold unified_comparison_all_models. intros Hlen Hrun.
  pose proof (script_sweep_shape _ _ _ _ Hlen Hrun)
    as (row0 & rows & gain0 & gains & _ & Hgains).
  pose proof (gains_signed log2 _ _ _ _ _ _ noise_range_nonempty
                noise_range_length Hrun) as Hsigned.
  assert (Hnum : Forall (fun e => is_nan (snd e) = false) (model_gains st)).
  { eapply Forall_impl; [|exact Hsigned]. cbn beta. intros e.
    apply sf_signed_number. }
  apply unified_comparison_completed in Hrun.
  destruct Hrun as ([bm bg] & worst & Hloop & Hmax & _ & -> & -> & _).
  cbn [fst snd].
  assert (Hcap : (256 <=? bg)%float = true -> bg = 256%float).
  { apply models_loop_appends in Hloop.
    destruct Hloop as (rs & _ & _ & Hok & Hfrom & _).
    pose proof (select_member _ _ _ Hmax) as Hin.
    rewrite Forall_forall in Hfrom. destruct (Hfrom _ Hin) as [[]|(adaps & Hrow & E)].
    cbn [snd] in E. rewrite Forall_forall in Hok.
    destruct (gain_over_static_of_curve adaps (Hok adaps Hrow)) as (S & HS & ES).
    rewrite E, ES. apply gain_of_twelve_cap. exact HS. }
  destruct (py_max_first_greatest _ _ Hnum Hmax) as (pre & post & E & Hpre & Hpost).
  cbn [snd] in Hpre, Hpost. rewrite Hgains in E.
  destruct pre as [|e0 [|e1 pre]]; cbn [app] in E.
  - injection E as <- <- <-.
    inversion Hpost as [|? ? Hle _]; subst. cbn [snd] in Hle.
    split; [apply Hcap; exact Hle | left; reflexivity].
  - injection E as _ <- <- _. split; [reflexivity | right; reflexivity].
  - injection E as _ <- _.
    inversion Hpre as [|? ? _ Hpre']; subst.
    inversion Hpre' as [|? ? Hlt _]; subst. cbn [snd] in Hlt.
    pose proof (Hcap (ltb_leb _ _ Hlt)) as Ebg. rewrite Ebg in Hlt. discriminate.
Qed.

(** X18: in the script's sweep the maximum curve is flat at [key_length]:
    at each of the twelve grid points some model retains the whole key. *)
Theorem script_max_curve_is_flat (original_key : string) (g g' : G) (st : summary) :
  len original_key < 2 ^ 63 ->
  unified_comparison_all_models log2 original_key g = inr (st, g') ->
  max_adaptive st = repeat key_length 12.
Proof.
  unfold unified_comparison_all_models. intros Hlen Hrun.
  pose proof (script_sweep_shape _ _ _ _ Hlen Hrun)
    as (row0 & rows & gain0 & gains & Hmatrix & _).
  pose proof (completed_rows log2 _ _ _ _ _ _ Hrun) as (_ & Hok & Hvals & Hhd).
  pose proof (unified_comparison_reductions log2 _ _ _ _ _ _ Hrun) as (_ & Hmax & _).
  pose proof (reduce_axis0_length _ _ _ Hmax) as Hlenmax.
  rewrite Hhd, noise_range_has_twelve in Hlenmax.
  assert (Hflat : forall j hi, nth_error (max_adaptive st) j = Some hi ->
                               hi = key_length).
  { intros j hi Hj.
    assert (Hlt : (j < 12)%nat)
      by (rewrite <- Hlenmax; apply nth_error_Some; congruence).
    destruct (reduce_axis0_nth _ _ _ _ _ Hmax Hj) as (x0 & rest & Hcol & -> & _).
    destruct (fold_max_spec rest x0) as [[H0 Hall] Hin].
    rewrite <- Hcol in Hin.
    assert (Htop : In key_length (column (adaptive_matrix st) j)).
    { apply (column_member _ (repeat key_length 12)).
      - rewrite Hmatrix. right. left. reflexivity.
      - rewrite nth_error_repeat by assumption. reflexivity. }
    rewrite Hcol in Htop.
    assert (Hge : key_length <= fold_left Z.max rest x0).
    { destruct Htop as [<-|Htop]; [exact H0|].
      rewrite Forall_forall in Hall. apply Hall. exact Htop. }
    destruct (column_entry noise_range _ j _ Hok
                ltac:(rewrite noise_range_has_twelve; exact Hlt) Hin)
      as (adaps & Hrow & Hx).
    rewrite Forall_forall in Hvals. specialize (Hvals adaps Hrow).
    rewrite Forall_forall in Hvals. specialize (Hvals _ (nth_error_In _ _ Hx)).
    unfold key_length in *. cbn [In] in Hvals. lia. }
  apply nth_error_ext. intros j.
  destruct (nth_error (max_adaptive st) j) as [hi|] eqn:Ej.
  - rewrite (Hflat j hi Ej).
    assert (Hlt : (j < 12)%nat)
      by (rewrite <- Hlenmax; apply nth_error_Some; congruence).
    rewrite nth_error_repeat by assumption. reflexivity.
  - apply nth_error_None in Ej. symmetry. apply nth_error_None.
    rewrite repeat_length. lia.
Qed.

End ScriptSweep.

(** ** The further sweep properties on the concrete run *)

Lemma demo_key_fits : len demo_key < 2 ^ 63.
Proof. vm_compute. reflexivity. Qed.

Lemma retained_counts_take_four_values_witness :
  Forall (Forall (fun ada => In ada [256; 307; 384; 512]))
         (adaptive_matrix demo_summary) /\
  Forall (fun ada => In ada [256; 307; 384; 512]) (min_adaptive demo_summary) /\
  Forall (fun ada => In ada [256; 307; 384; 512]) (max_adaptive demo_summary).
Proof.
  exact (retained_counts_take_four_values approx_log2 noise_models noise_range
           demo_key 7 demo_state demo_summary demo_run_completes).
Defined.

Lemma envelope_brackets_every_curve_witness :
  List.length (min_adaptive demo_summary) = List.length noise_range /\
  List.length (max_adaptive demo_summary) = List.length noise_range /\
  (forall adaps j lo hi ada,
      In adaps (adaptive_matrix demo_summary) ->
      nth_error (min_adaptive demo_summary) j = Some lo ->
      nth_error (max_adaptive demo_summary) j = Some hi ->
      nth_error adaps j = Some ada ->
      lo <= ada <= hi) /\
  (forall j lo, nth_error (min_adaptive demo_summary) j = Some lo ->
      exists adaps, In adaps (adaptive_matrix demo_summary) /\
                    nth_error adaps j = Some lo) /\
  (forall j hi, nth_error (max_adaptive demo_summary) j = Some hi ->
      exists adaps, In adaps (adaptive_matrix demo_summary) /\
                    nth_error adaps j = Some hi).
Proof.
  exact (envelope_brackets_every_curve approx_log2 noise_models noise_range
           demo_key 7 demo_state demo_summary demo_run_completes).
Defined.

Lemma model_gains_keys_witness :
  NoDup (map fst (model_gains demo_summary)) /\
  (forall model, In model (map fst (model_gains demo_summary))
                 <-> In model noise_models).
Proof.
  exact (model_gains_keys approx_log2 noise_models noise_range
           demo_key 7 demo_state demo_summary demo_run_completes).
Defined.

Lemma sweep_fails_only_on_empty_key_witness :
  unified_comparison approx_log2 noise_models noise_range EmptyString 7
  = inl ZeroDivisionError /\
  (forall original_key, original_key <> EmptyString ->
     exists st g',
       unified_comparison approx_log2 noise_models noise_range original_key 7
       = inr (st, g')).
Proof.
  apply sweep_fails_only_on_empty_key.
  - discriminate.
  - exact noise_range_nonempty.
Defined.

Lemma highlighted_rows_are_best_and_worst_witness :
  (exists idx_best adaps,
      py_index noise_models (best_model demo_summary) = inr idx_best /\
      row_at (adaptive_matrix demo_summary) idx_best = Some adaps /\
      best_gain demo_summary = gain_over_static adaps) /\
  (exists idx_worst adaps,
      py_index noise_models (worst_model demo_summary) = inr idx_worst /\
      row_at (adaptive_matrix demo_summary) idx_worst = Some adaps /\
      worst_gain demo_summary = gain_over_static adaps).
Proof.
  exact (highlighted_rows_are_best_and_worst approx_log2 noise_models
           noise_range demo_key 7 demo_state demo_summary
           NoDup_noise_models demo_run_completes).
Defined.

Lemma script_best_gain_is_256_witness :
  best_gain demo_summary = 256%float /\
  (best_model demo_summary = "Bit Flip" \/ best_model demo_summary = "Phase Flip").
Proof.
  exact (script_best_gain_is_256 approx_log2 demo_key 7 demo_state demo_summary
           demo_key_fits demo_run_completes).
Defined.

Lemma script_max_curve_is_flat_witness :
  max_adaptive demo_summary = repeat key_length 12.
Proof.
  exact (script_max_curve_is_flat approx_log2 demo_key 7 demo_state demo_summary
           demo_key_fits demo_run_completes).
Defined.
